(** * WhatsApp session gateway: session lifecycle and dispatch queue

    A shallow embedding of the Express application of this repository
    (the revision with the startup retry loop): the four module-level
    variables [client], [qrCodeData], [isClientReady], [isInitializing],
    the helper functions [initializeWhatsAppClient] and
    [closeWhatsAppSession], the route handlers, and the jobs handed to the
    p-queue instance.

    External libraries (whatsapp-web.js, axios, qrcode, p-queue) are not
    part of the repository.  Calls on the client handle whose promise is
    awaited by the lifecycle code ([client.initialize()],
    [client.destroy()]) take their outcome from an oracle [env]; calls made
    by queued jobs ([axios.get], [client.sendMessage]) settle through
    explicit inputs of the event loop, so that jobs can stay in flight.
    Every external call is recorded in the event log of the state.

    The lifecycle handlers are functions of the state, run from their
    first statement to their last; the properties about them speak of a
    handler that is not interleaved with another request between its
    [await]s.  Query parameters are strings. *)

From Stdlib Require Import String Ascii List ZArith Bool Arith Lia Sorted Permutation.
Import ListNotations.
Local Open Scope string_scope.
Local Open Scope list_scope.

(** ** Pure helpers used by the send jobs *)

Module Js.

(** Truthiness of a query parameter: [undefined] and the empty string are
    falsy, every other string is truthy. *)
Definition truthy (p : option string) : bool :=
  match p with
  | None => false
  | Some s => negb (String.eqb s "")
  end.

(** [s.split(sep)] for a one-character separator: never the empty array. *)
Fixpoint split (sep : ascii) (s : string) : list string :=
  match s with
  | EmptyString => [""]
  | String c s' =>
      if Ascii.eqb c sep then "" :: split sep s'
      else match split sep s' with
           | seg :: segs => String c seg :: segs
           | [] => [String c ""]
           end
  end.

(** [a.pop()] as an expression: the last element, [undefined] on []. *)
Fixpoint pop {A : Type} (a : list A) : option A :=
  match a with
  | [] => None
  | [x] => Some x
  | _ :: a' => pop a'
  end.

(** Property access on a headers object: the first binding of the key. *)
Fixpoint prop (key : string) (obj : list (string * string)) : option string :=
  match obj with
  | [] => None
  | (k, v) :: obj' => if String.eqb k key then Some v else prop key obj'
  end.

End Js.

(** ** Base64, as produced by [Buffer.prototype.toString('base64')] *)

Module Base64.

Local Open Scope Z_scope.

Definition alphabet : string :=
  "ABCDEFGHIJKLMNOPQRSTUVWXYZabcdefghijklmnopqrstuvwxyz0123456789+/".

Definition pad : ascii := "="%char.

(** The character of a 6-bit group. *)
Definition digit (n : Z) : ascii :=
  match String.get (Z.to_nat (Z.land n 63)) alphabet with
  | Some c => c
  | None => pad
  end.

Definition sextet (word : Z) (i : Z) : ascii :=
  digit (Z.shiftr word (18 - 6 * i)).

(** Octets are integers in [0, 256); each group of three octets is packed
    into a 24-bit word and read back as four sextets. *)
Fixpoint encode (octets : list Z) : string :=
  match octets with
  | [] => EmptyString
  | [a] =>
      let w := Z.shiftl (Z.land a 255) 16 in
      String (sextet w 0) (String (sextet w 1) (String pad (String pad EmptyString)))
  | [a; b] =>
      let w := Z.lor (Z.shiftl (Z.land a 255) 16) (Z.shiftl (Z.land b 255) 8) in
      String (sextet w 0) (String (sextet w 1) (String (sextet w 2) (String pad EmptyString)))
  | a :: b :: c :: rest =>
      let w := Z.lor (Z.lor (Z.shiftl (Z.land a 255) 16) (Z.shiftl (Z.land b 255) 8))
                     (Z.land c 255) in
      String (sextet w 0) (String (sextet w 1) (String (sextet w 2) (String (sextet w 3)
        (encode rest))))
  end.

(** The 6-bit value of a character of the alphabet of RFC 4648, table 1:
    A-Z are 0-25, a-z are 26-51, 0-9 are 52-61, + is 62 and / is 63. *)
Definition value (c : ascii) : option Z :=
  let n := Z.of_nat (nat_of_ascii c) in
  if (65 <=? n) && (n <=? 90) then Some (n - 65)
  else if (97 <=? n) && (n <=? 122) then Some (n - 71)
  else if (48 <=? n) && (n <=? 57) then Some (n + 4)
  else if n =? 43 then Some 62
  else if n =? 47 then Some 63
  else None.

(** The three octets held by four 6-bit values. *)
Definition group (v0 v1 v2 v3 : Z) : list Z :=
  [(v0 * 4 + v1 / 16) mod 256; (v1 * 16 + v2 / 4) mod 256; (v2 * 64 + v3) mod 256].

(** Reference decoder of RFC 4648, section 4, for canonical input: groups
    of four characters, padding at the end only and the unused bits of a
    padded group zero.  It is not called by the program; the properties
    of [encode] are stated against it. *)
Fixpoint decode (s : string) : option (list Z) :=
  match s with
  | EmptyString => Some []
  | String c0 (String c1 (String c2 (String c3 rest))) =>
      match value c0, value c1 with
      | Some v0, Some v1 =>
          if Ascii.eqb c2 pad then
            match Ascii.eqb c3 pad, rest with
            | true, EmptyString =>
                if v1 mod 16 =? 0 then Some (firstn 1 (group v0 v1 0 0)) else None
            | _, _ => None
            end
          else
            match value c2 with
            | None => None
            | Some v2 =>
                if Ascii.eqb c3 pad then
                  match rest with
                  | EmptyString =>
                      if v2 mod 4 =? 0 then Some (firstn 2 (group v0 v1 v2 0)) else None
                  | _ => None
                  end
                else
                  match value c3, decode rest with
                  | Some v3, Some octets => Some (group v0 v1 v2 v3 ++ octets)
                  | _, _ => None
                  end
            end
      | _, _ => None
      end
  | _ => None
  end.

End Base64.

(** ** Values exchanged with the outside world *)

(** The identity of a [Client] object: the n-th object constructed. *)
Definition handle := nat.

(** A JavaScript [Error]: the two properties the handlers read. *)
Record error := Error { message : string; stack : string }.

(** The value of [await qrcode.toDataURL(qr)], kept symbolic. *)
Inductive data_url := toDataURL (qr : string).

(** [new MessageMedia(mimetype, data, filename)]. *)
Record MessageMedia := mkMessageMedia {
  mimetype : option string;
  data : string;
  filename : option string
}.

Inductive content :=
| Text (body : string)
| Media (media : MessageMedia).

(** What [axios.get(url, { responseType: 'arraybuffer' })] resolves to. *)
Record axios_response := mkAxiosResponse {
  headers : list (string * string);
  response_data : list Z
}.

(** The four events a client emits to the handlers registered on it. *)
Inductive signal :=
| qr (payload : string)
| ready
| auth_failure (msg : string)
| disconnected (reason : string).

Inductive json :=
| JString (s : string)
| JBool (b : bool)
| JNull
| JDataUrl (u : data_url).

(** [res.status(code).json(body)]; [res.json(body)] has status 200. *)
Record response := Json { status : nat; body : list (string * json) }.

(** External effects, in the order in which they happen. *)
Inductive event :=
| ENewClient (h : handle)                       (* new Client({...}) *)
| EInitialize (h : handle)                      (* client.initialize() *)
| EDestroy (h : handle)                         (* client.destroy() *)
| ESleep (ms : Z)                               (* setTimeout(resolve, ms) *)
| EFetch (url : string)                         (* axios.get(url, ...) *)
| ESendMessage (h : handle) (chatId : string) (c : content)
| EStart (id : nat)                             (* the queue invokes job [id] *)
| EResponse (id : nat) (r : response)           (* the reply to request [id] *)
| EUnhandled (id : nat) (e : error).            (* handler [id] rejected *)

(** The oracle for the awaited lifecycle calls.  [startup h] is what
    [client.initialize()] does on handle [h]: the signals it emits while
    the caller waits, then [None] (resolved) or [Some e] (rejected with
    [e]).  [teardown h] is the outcome of [client.destroy()]. *)
Record env := mkEnv {
  startup : handle -> list signal * option error;
  teardown : handle -> option error
}.

(** ** The dispatch queue *)

(** The closure passed to [queue.add]: it captures the query parameters,
    but not [client], which it reads when it runs. *)
Inductive job :=
| TextJob (phone message : string)
| MediaJob (phone message fileUrl : string).

Record task := mkTask { tid : nat; tjob : job }.

(** Where a started job is suspended. *)
Inductive phase :=
| Fetching                                (* await axios.get(fileUrl, ...) *)
| SendingText (then_media : option MessageMedia)
                                          (* await client.sendMessage(chatId, message) *)
| SendingMedia.                           (* await client.sendMessage(chatId, media) *)

(** Modelled from the spec: the p-queue instance built by
    [new PQueue.default({ concurrency: 3 })] is not part of the repository.
    It is an ordered sequence of pending jobs, a concurrency limit fixed at
    construction and the jobs in flight. *)
Record PQueue := mkPQueue {
  concurrency : nat;
  running : list (task * phase);
  waiting : list task
}.

(** ** Module-level state *)

Record state := mkState {
  client : option handle;          (* let client; *)
  qrCodeData : option data_url;    (* let qrCodeData = null; *)
  isClientReady : bool;            (* let isClientReady = false; *)
  isInitializing : bool;           (* let isInitializing = false; *)
  queue : PQueue;                  (* const queue = new PQueue.default({ concurrency: 3 }); *)
  constructed : nat;               (* Client objects constructed so far *)
  requests : nat;                  (* requests received so far *)
  log : list event
}.

Definition initial_state : state :=
  mkState None None false false (mkPQueue 3 [] []) 0 0 [].

Definition set_client (v : option handle) (st : state) : state :=
  mkState v (qrCodeData st) (isClientReady st) (isInitializing st)
          (queue st) (constructed st) (requests st) (log st).

Definition set_qrCodeData (v : option data_url) (st : state) : state :=
  mkState (client st) v (isClientReady st) (isInitializing st)
          (queue st) (constructed st) (requests st) (log st).

Definition set_isClientReady (v : bool) (st : state) : state :=
  mkState (client st) (qrCodeData st) v (isInitializing st)
          (queue st) (constructed st) (requests st) (log st).

Definition set_isInitializing (v : bool) (st : state) : state :=
  mkState (client st) (qrCodeData st) (isClientReady st) v
          (queue st) (constructed st) (requests st) (log st).

Definition set_queue (v : PQueue) (st : state) : state :=
  mkState (client st) (qrCodeData st) (isClientReady st) (isInitializing st)
          v (constructed st) (requests st) (log st).

Definition set_constructed (v : nat) (st : state) : state :=
  mkState (client st) (qrCodeData st) (isClientReady st) (isInitializing st)
          (queue st) v (requests st) (log st).

Definition set_requests (v : nat) (st : state) : state :=
  mkState (client st) (qrCodeData st) (isClientReady st) (isInitializing st)
          (queue st) (constructed st) v (log st).

Definition emit (e : event) (st : state) : state :=
  mkState (client st) (qrCodeData st) (isClientReady st) (isInitializing st)
          (queue st) (constructed st) (requests st) (log st ++ [e]).

(** ** A monad for the awaited lifecycle code: state and exceptions *)

Inductive result (A : Type) :=
| Ok (a : A)
| Throw (e : error).
Arguments Ok {A} a.
Arguments Throw {A} e.

Definition M (A : Type) : Type := state -> result A * state.

Definition ret {A} (a : A) : M A := fun st => (Ok a, st).

Definition throw {A} (e : error) : M A := fun st => (Throw e, st).

Definition bind {A B} (m : M A) (k : A -> M B) : M B :=
  fun st =>
    match m st with
    | (Ok a, st') => k a st'
    | (Throw e, st') => (Throw e, st')
    end.

(** [try { m } catch (error) { h error }] *)
Definition try_catch {A} (m : M A) (h : error -> M A) : M A :=
  fun st =>
    match m st with
    | (Ok a, st') => (Ok a, st')
    | (Throw e, st') => h e st'
    end.

(** [try { m } finally { f }], for a [finally] block that cannot throw. *)
Definition try_finally {A} (m : M A) (f : state -> state) : M A :=
  fun st => let (r, st') := m st in (r, f st').

(** A statement that only updates the state. *)
Definition exec (f : state -> state) : M unit := fun st => (Ok tt, f st).

Definition get : M state := fun st => (Ok st, st).

Declare Scope js_scope.
Delimit Scope js_scope with js.
Notation "x <- m ;; k" := (bind m (fun x => k))
  (at level 100, m at next level, right associativity) : js_scope.
Notation "m ;; k" := (bind m (fun _ => k))
  (at level 100, right associativity) : js_scope.
Local Open Scope js_scope.

(** ** Signal handlers registered by [initializeWhatsAppClient] *)

(** [client.on('qr', async (qr) => { qrCodeData = await qrcode.toDataURL(qr); })]
    The encoding is taken to complete before the next input is served. *)
Definition on_qr (payload : string) (st : state) : state :=
  set_qrCodeData (Some (toDataURL payload)) st.

(** [client.on('ready', () => { isClientReady = true; qrCodeData = null; })] *)
Definition on_ready (st : state) : state :=
  set_qrCodeData None (set_isClientReady true st).

(** [client.on('auth_failure', msg => { console.error(...); })] *)
Definition on_auth_failure (msg : string) (st : state) : state := st.

(** [client.on('disconnected', (reason) => { isClientReady = false; })] *)
Definition on_disconnected (reason : string) (st : state) : state :=
  set_isClientReady false st.

Definition deliver (s : signal) (st : state) : state :=
  match s with
  | qr payload => on_qr payload st
  | ready => on_ready st
  | auth_failure msg => on_auth_failure msg st
  | disconnected reason => on_disconnected reason st
  end.

Definition deliver_all (sigs : list signal) (st : state) : state :=
  fold_left (fun s sig => deliver sig s) sigs st.

(** ** Session lifecycle *)

Section Lifecycle.

Variable world : env.

(** [new Client({ puppeteer: {...}, session: null })] *)
Definition new_Client : M handle :=
  fun st =>
    let h := constructed st in
    (Ok h, emit (ENewClient h) (set_constructed (S h) st)).

(** [await client.initialize()] on the handle just stored in [client]. *)
Definition client_initialize (h : handle) : M unit :=
  fun st =>
    let st' := deliver_all (fst (startup world h)) (emit (EInitialize h) st) in
    match snd (startup world h) with
    | None => (Ok tt, st')
    | Some e => (Throw e, st')
    end.

(** [await client.destroy()] *)
Definition client_destroy (h : handle) : M unit :=
  fun st =>
    let st' := emit (EDestroy h) st in
    match teardown world h with
    | None => (Ok tt, st')
    | Some e => (Throw e, st')
    end.

(** [await new Promise(resolve => setTimeout(resolve, ms))] *)
Definition sleep (ms : Z) : M unit := exec (emit (ESleep ms)).

(** The [for] loop of [initializeWhatsAppClient] with [remaining]
    iterations to go, that is at [i = retries - remaining]; leaving the
    loop reaches [return false]. *)
Fixpoint attempts (retries remaining : nat) : M bool :=
  match remaining with
  | 0 => ret false
  | S remaining' =>
      let i := retries - remaining in
      try_catch
        (h <- new_Client ;;
         exec (set_client (Some h)) ;;
         (* client.on('qr' | 'ready' | 'auth_failure' | 'disconnected', ...) *)
         client_initialize h ;;
         ret true)
        (fun error =>
           if Nat.eqb i (retries - 1) then throw error
           else (sleep 5000%Z ;; attempts retries remaining'))
  end.

Definition initializeWhatsAppClient (retries : nat) : M bool :=
  attempts retries retries.

Definition closeWhatsAppSession : M unit :=
  st <- get ;;
  match client st with
  | Some h => client_destroy h ;; exec (set_client None)
  | None => ret tt
  end ;;
  exec (set_isClientReady false) ;;
  exec (set_isInitializing false) ;;
  exec (set_qrCodeData None).

Definition json_of_qr (d : option data_url) : json :=
  match d with
  | Some u => JDataUrl u
  | None => JNull
  end.

Definition initialized_response (d : option data_url) : response :=
  Json 200 [("message", JString "Cliente de WhatsApp inicializado."); ("qr", json_of_qr d)].

Definition not_initialized_response : response :=
  Json 500 [("error", JString "No se pudo inicializar el cliente después de múltiples intentos")].

Definition initialize_error_response (e : error) : response :=
  Json 500 [("error", JString "Error al inicializar el cliente de WhatsApp");
            ("details", JString (message e));
            ("stack", JString (stack e))].

(** [app.get('/initialize', ...)] *)
Definition app_get_initialize : M response :=
  st <- get ;;
  (if isInitializing st || isClientReady st then closeWhatsAppSession else ret tt) ;;
  exec (set_isInitializing true) ;;
  exec (set_isClientReady false) ;;
  exec (set_qrCodeData None) ;;
  try_finally
    (try_catch
       (success <- initializeWhatsAppClient 3 ;;
        if success : bool then (st' <- get ;; ret (initialized_response (qrCodeData st')))
        else ret not_initialized_response)
       (fun error => ret (initialize_error_response error)))
    (set_isInitializing false).

Definition closed_response : response :=
  Json 200 [("message", JString "Sesión de WhatsApp cerrada.")].

(** [app.get('/close', ...)] *)
Definition app_get_close : M response :=
  closeWhatsAppSession ;;
  ret closed_response.

(** [app.get('/status', ...)] *)
Definition app_get_status : M response :=
  st <- get ;;
  ret (Json 200 [("status", JString (if isClientReady st then "WhatsApp está listo"
                                     else "WhatsApp no está iniciado"));
                 ("isReady", JBool (isClientReady st))]).

End Lifecycle.

(** ** Send jobs *)

(** [`${phone}@c.us`] *)
Definition chatId (phone : string) : string := String.append phone "@c.us".

Definition job_phone (j : job) : string :=
  match j with
  | TextJob phone _ => phone
  | MediaJob phone _ _ => phone
  end.

(** The media payload built from the fetched response. *)
Definition media_of (fileUrl : string) (resp : axios_response) : MessageMedia :=
  mkMessageMedia
    (Js.prop "content-type" (headers resp))
    (Base64.encode (response_data resp))
    (Js.pop (Js.split "/" fileUrl)).

(** The reply sent after [await queue.add(...)] returns. *)
Definition sent_response (j : job) : response :=
  match j with
  | TextJob _ _ =>
      Json 200 [("success", JBool true); ("message", JString "Mensaje enviado con éxito")]
  | MediaJob _ _ _ =>
      Json 200 [("success", JBool true);
                ("message", JString "Mensaje y archivo multimedia enviados con éxito")]
  end.

(** The reply sent from the [catch] block around [await queue.add(...)]. *)
Definition send_error_response (j : job) : response :=
  match j with
  | TextJob _ _ => Json 500 [("error", JString "Error al enviar el mensaje")]
  | MediaJob _ _ _ => Json 500 [("error", JString "Error al enviar el mensaje multimedia")]
  end.

Definition respond (id : nat) (r : response) : state -> state :=
  emit (EResponse id r).

(** [client.sendMessage(to, c)] evaluated now: the call goes to whatever
    handle [client] holds at this moment; on [null] the property access
    throws a TypeError ([None]).  The ready flag is not read. *)
Definition client_sendMessage (to : string) (c : content) (st : state) : option state :=
  match client st with
  | Some h => Some (emit (ESendMessage h to c) st)
  | None => None
  end.

(** Running the closure up to its first suspension: the phase it waits in,
    or [None] when it threw before waiting. *)
Definition invoke (j : job) (st : state) : option phase * state :=
  match j with
  | TextJob phone message =>
      match client_sendMessage (chatId phone) (Text message) st with
      | Some st' => (Some (SendingText None), st')
      | None => (None, st)
      end
  | MediaJob _ _ fileUrl => (Some Fetching, emit (EFetch fileUrl) st)
  end.

Definition with_waiting (w : list task) (q : PQueue) : PQueue :=
  mkPQueue (concurrency q) (running q) w.

Definition with_running (r : list (task * phase)) (q : PQueue) : PQueue :=
  mkPQueue (concurrency q) r (waiting q).

Definition is_task (id : nat) (tp : task * phase) : bool := Nat.eqb (tid (fst tp)) id.

(** Modelled from the spec: p-queue's admission step is not part of the
    repository.  While a concurrency slot is free the oldest pending job is
    taken and invoked; a job that fails before it suspends gives its slot
    back at once, so the next pending job is tried. *)
Fixpoint tryToStartAnother (pending : list task) (st : state) : state :=
  match pending with
  | [] => set_queue (with_waiting [] (queue st)) st
  | t :: pending' =>
      if Nat.ltb (length (running (queue st))) (concurrency (queue st)) then
        match invoke (tjob t) (emit (EStart (tid t)) st) with
        | (Some ph, st') =>
            set_queue (mkPQueue (concurrency (queue st'))
                                (running (queue st') ++ [(t, ph)]) pending') st'
        | (None, st') =>
            tryToStartAnother pending' (respond (tid t) (send_error_response (tjob t)) st')
        end
      else set_queue (with_waiting pending (queue st)) st
  end.

(** Modelled from the spec: [queue.add(job)] of p-queue, not part of the
    repository: the job is appended to the pending sequence and admission
    is attempted. *)
Definition queue_add (t : task) (st : state) : state :=
  tryToStartAnother (waiting (queue st) ++ [t]) st.

(** Modelled from the spec: p-queue's completion step, not part of the
    repository: the settled job frees its slot and admission is attempted. *)
Definition queue_next (id : nat) (st : state) : state :=
  let q := queue st in
  let st' := set_queue (with_running (filter (fun tp => negb (is_task id tp)) (running q)) q) st in
  tryToStartAnother (waiting q) st'.

(** The job settled: the awaiting handler replies and the slot is freed. *)
Definition settle (t : task) (r : response) (st : state) : state :=
  queue_next (tid t) (respond (tid t) r st).

(** The job moves on to its next await. *)
Definition suspend (t : task) (ph : phase) (st : state) : state :=
  let q := queue st in
  set_queue
    (with_running (map (fun tp => if is_task (tid t) tp then (t, ph) else tp) (running q)) q) st.

Definition lookup_running (id : nat) (st : state) : option (task * phase) :=
  find (is_task id) (running (queue st)).

(** The promise of [axios.get] of job [id] settles. *)
Definition fetch_settled (id : nat) (outcome : error + axios_response) (st : state) : state :=
  match lookup_running id st with
  | Some (t, Fetching) =>
      match tjob t, outcome with
      | MediaJob phone message fileUrl, inr resp =>
          let media := media_of fileUrl resp in
          match client_sendMessage (chatId phone) (Text message) st with
          | Some st' => suspend t (SendingText (Some media)) st'
          | None => settle t (send_error_response (tjob t)) st
          end
      | _, _ => settle t (send_error_response (tjob t)) st
      end
  | _ => st
  end.

(** The promise of the [client.sendMessage] awaited by job [id] settles. *)
Definition send_settled (id : nat) (outcome : option error) (st : state) : state :=
  match lookup_running id st with
  | Some (t, SendingText next) =>
      match outcome, next with
      | Some _, _ => settle t (send_error_response (tjob t)) st
      | None, None => settle t (sent_response (tjob t)) st
      | None, Some media =>
          match client_sendMessage (chatId (job_phone (tjob t))) (Media media) st with
          | Some st' => suspend t SendingMedia st'
          | None => settle t (send_error_response (tjob t)) st
          end
      end
  | Some (t, SendingMedia) =>
      match outcome with
      | Some _ => settle t (send_error_response (tjob t)) st
      | None => settle t (sent_response (tjob t)) st
      end
  | _ => st
  end.

(** ** Send routes *)

(** [req.query] at the three keys the routes read, for parameters given
    once and in plain form: each is a string or absent.  A key that is
    repeated or written with brackets reaches the handler as an array or
    an object; such requests are outside the model. *)
Record query := mkQuery {
  phone : option string;
  message_param : option string;
  fileUrl : option string
}.

Definition param (p : option string) : string :=
  match p with
  | Some s => s
  | None => ""
  end.

Definition not_ready_response : response :=
  Json 503 [("error", JString "El cliente de WhatsApp aún no está listo.")].

(** [app.get('/send-message', ...)] for request [id] *)
Definition app_get_send_message (id : nat) (q : query) (st : state) : state :=
  if negb (Js.truthy (phone q)) || negb (Js.truthy (message_param q)) then
    respond id (Json 400 [("error", JString "Se requieren los parámetros phone y message")]) st
  else if negb (isClientReady st) then
    respond id not_ready_response st
  else
    queue_add (mkTask id (TextJob (param (phone q)) (param (message_param q)))) st.

(** [app.get('/send-message_media', ...)] for request [id] *)
Definition app_get_send_message_media (id : nat) (q : query) (st : state) : state :=
  if negb (Js.truthy (phone q)) || negb (Js.truthy (message_param q))
     || negb (Js.truthy (fileUrl q)) then
    respond id (Json 400 [("error",
      JString "Se requieren los parámetros phone, message y fileUrl")]) st
  else if negb (isClientReady st) then
    respond id not_ready_response st
  else
    queue_add (mkTask id (MediaJob (param (phone q)) (param (message_param q))
                                   (param (fileUrl q)))) st.

(** ** The event loop *)

Inductive input :=
| GET_initialize
| GET_close
| GET_status
| GET_send_message (q : query)
| GET_send_message_media (q : query)
| Signal (s : signal)
| FetchSettled (id : nat) (outcome : error + axios_response)
| SendSettled (id : nat) (outcome : option error).

(** A lifecycle route served for request [id].  The handler is run up to
    its completion before the next input is taken: the event loop below
    covers the schedules in which nothing else arrives while a lifecycle
    handler waits at an [await].  A handler that rejects computes no reply.
    Express drops the promise of the handler, and what the runtime does
    with the unhandled rejection is not in the program text; here the
    rejection is recorded and the loop goes on, so that the states of a
    process that stops at this point are states of the model as well. *)
Definition serve (handler : M response) (id : nat) (st : state) : state :=
  match handler st with
  | (Ok r, st') => respond id r st'
  | (Throw e, st') => emit (EUnhandled id e) st'
  end.

Definition accept (route : nat -> state -> state) (st : state) : state :=
  route (requests st) (set_requests (S (requests st)) st).

Definition step (world : env) (i : input) (st : state) : state :=
  match i with
  | GET_initialize => accept (serve (app_get_initialize world)) st
  | GET_close => accept (serve (app_get_close world)) st
  | GET_status => accept (serve app_get_status) st
  | GET_send_message q => accept (fun id => app_get_send_message id q) st
  | GET_send_message_media q => accept (fun id => app_get_send_message_media id q) st
  | Signal s => deliver s st
  | FetchSettled id outcome => fetch_settled id outcome st
  | SendSettled id outcome => send_settled id outcome st
  end.

Definition run (world : env) (inputs : list input) (st : state) : state :=
  fold_left (fun s i => step world i s) inputs st.

Inductive reachable (world : env) : state -> Prop :=
| reachable_initial : reachable world initial_state
| reachable_step i st : reachable world st -> reachable world (step world i st).

(** ** Vocabulary of the properties *)

(** How often the startup routine was invoked in a stretch of the log. *)
Fixpoint invocations (evs : list event) : nat :=
  match evs with
  | [] => 0
  | EInitialize _ :: evs' => S (invocations evs')
  | _ :: evs' => invocations evs'
  end.

(** The delays waited for in a stretch of the log, in order. *)
Fixpoint delays (evs : list event) : list Z :=
  match evs with
  | [] => []
  | ESleep ms :: evs' => ms :: delays evs'
  | _ :: evs' => delays evs'
  end.

(** The jobs the queue has invoked, in order of invocation. *)
Fixpoint admissions (evs : list event) : list nat :=
  match evs with
  | [] => []
  | EStart id :: evs' => id :: admissions evs'
  | _ :: evs' => admissions evs'
  end.

(** One startup attempt on the next fresh handle. *)
Definition attempt (h : handle) : list event := [ENewClient h; EInitialize h].

(** [k] failed attempts from handle [h] on, each followed by the delay. *)
Fixpoint failed_attempts (h : handle) (k : nat) : list event :=
  match k with
  | 0 => []
  | S k' => attempt h ++ ESleep 5000%Z :: failed_attempts (S h) k'
  end.

(** The startup routine rejects on handle [h]. *)
Definition fails (world : env) (h : handle) : Prop := snd (startup world h) <> None.

Definition succeeds (world : env) (h : handle) : Prop := snd (startup world h) = None.

(** The startup routine emits no signal on handle [h]. *)
Definition silent (world : env) (h : handle) : Prop := fst (startup world h) = [].

(** The teardown of the handle currently held, if any, resolves. *)
Definition teardown_completes (world : env) (st : state) : Prop :=
  match client st with
  | Some h => teardown world h = None
  | None => True
  end.

(** The state called Absent: no handle, no challenge, neither flag set. *)
Definition Absent (st : state) : Prop :=
  client st = None /\ qrCodeData st = None /\
  isClientReady st = false /\ isInitializing st = false.

(** [isReady] as reported by [/status]. *)
Definition status_isReady (st : state) : option json :=
  match fst (app_get_status st) with
  | Ok r => option_map snd (find (fun kv => String.eqb (fst kv) "isReady") (body r))
  | Throw _ => None
  end.

(** [n] consecutive calls of [/close]: the results, oldest first, and the
    final state. *)
Fixpoint closes (world : env) (n : nat) (st : state) : list (result response) * state :=
  match n with
  | 0 => ([], st)
  | S n' =>
      let (r, st') := app_get_close world st in
      let (rs, st'') := closes world n' st' in
      (r :: rs, st'')
  end.

(** Strictly increasing identifiers, all in [lo, hi). *)
Fixpoint ascending (lo hi : nat) (ids : list nat) : Prop :=
  match ids with
  | [] => lo <= hi
  | id :: ids' => lo <= id /\ ascending (S id) hi ids'
  end.

(** The request that submits a job. *)
Definition submission (j : job) : input :=
  match j with
  | TextJob p m => GET_send_message (mkQuery (Some p) (Some m) None)
  | MediaJob p m u => GET_send_message_media (mkQuery (Some p) (Some m) (Some u))
  end.

(** All parameters of the job are non-empty strings. *)
Definition well_formed (j : job) : Prop :=
  match j with
  | TextJob p m => p <> "" /\ m <> ""
  | MediaJob p m u => p <> "" /\ m <> "" /\ u <> ""
  end.

(** The await a job blocks on right after its invocation, given a handle. *)
Definition first_phase (j : job) : phase :=
  match j with
  | TextJob _ _ => SendingText None
  | MediaJob _ _ _ => Fetching
  end.

(** Jobs numbered with consecutive request identifiers. *)
Fixpoint numbered (id : nat) (js : list job) : list task :=
  match js with
  | [] => []
  | j :: js' => mkTask id j :: numbered (S id) js'
  end.

Definition blocked (t : task) : task * phase := (t, first_phase (tjob t)).

(** No job in flight carries identifier [id]. *)
Definition fresh_id (id : nat) (st : state) : Prop :=
  Forall (fun tp => tid (fst tp) <> id) (running (queue st)).

Fixpoint no_slash (s : string) : Prop :=
  match s with
  | EmptyString => True
  | String c s' => c <> "/"%char /\ no_slash s'
  end.

(** Sample environments and inputs. *)
Definition launch_error : error := Error "Failed to launch the browser process" "at launch".

Definition always_rejects : env := mkEnv (fun _ => ([], Some launch_error)) (fun _ => None).

(** Startup rejects on the first [k] handles and resolves afterwards. *)
Definition resolves_after (k : nat) : env :=
  mkEnv (fun h => if Nat.ltb h k then ([], Some launch_error) else ([], None))
        (fun _ => None).

(** Startup issues a challenge and resolves; teardown resolves. *)
Definition awaiting_scan : env := mkEnv (fun _ => ([qr "2@challenge"], None)) (fun _ => None).

(** Startup resolves with the session restored; teardown rejects. *)
Definition stuck_browser : env :=
  mkEnv (fun _ => ([ready], None)) (fun _ => Some (Error "Target closed" "at destroy")).

(** Startup resolves with the session restored; teardown resolves. *)
Definition logged_in : env := mkEnv (fun _ => ([ready], None)) (fun _ => None).

Definition png_response : axios_response :=
  mkAxiosResponse [("content-type", "image/png")] [1; 2]%Z.

(** The state when [client.initialize()] of a fresh attempt settles. *)
Definition after_attempt (world : env) (st : state) : state :=
  let h := constructed st in
  deliver_all (fst (startup world h))
    (emit (EInitialize h) (set_client (Some h) (emit (ENewClient h) (set_constructed (S h) st)))).

(** Signal handlers touch the two session variables only. *)
Definition same_plumbing (st st' : state) : Prop :=
  client st' = client st /\ isInitializing st' = isInitializing st /\
  queue st' = queue st /\ constructed st' = constructed st /\
  requests st' = requests st /\ log st' = log st.

(** The three assignments that end [closeWhatsAppSession]. *)
Definition reset (st : state) : state :=
  set_qrCodeData None (set_isInitializing false (set_isClientReady false st)).

(** The three assignments that precede the [try] of [/initialize]. *)
Definition armed (st : state) : state :=
  set_qrCodeData None (set_isClientReady false (set_isInitializing true st)).

(** The conditional forced close that opens [/initialize]. *)
Definition forced_close (world : env) : M unit :=
  fun st =>
    if isInitializing st || isClientReady st then closeWhatsAppSession world st
    else (Ok tt, st).

(** The events a call added to the log are [evs]. *)
Definition added (st st' : state) (evs : list event) : Prop := log st' = log st ++ evs.

(** The identifiers of the admitted and the pending jobs, oldest first. *)
Definition order (st : state) : list nat :=
  admissions (log st) ++ map tid (waiting (queue st)).

(** A call that leaves the queue alone and invokes no job. *)
Definition queue_untouched (st st' : state) : Prop :=
  queue st' = queue st /\ requests st' = requests st /\
  admissions (log st') = admissions (log st).

(** The number of jobs in flight respects the limit. *)
Definition bounded (st : state) : Prop :=
  length (running (queue st)) <= concurrency (queue st).

(** A step of the event loop that submits nothing: the limit and the
    admission order are kept. *)
Definition quiet (st st' : state) : Prop :=
  concurrency (queue st') = concurrency (queue st) /\
  (bounded st -> bounded st') /\
  order st' = order st /\
  requests st' = requests st.

(** The external call a job blocks on right after its invocation, given
    the handle then in [client]. *)
Definition first_call (h : handle) (j : job) : event :=
  match j with
  | TextJob p m => ESendMessage h (chatId p) (Text m)
  | MediaJob _ _ u => EFetch u
  end.

(** Task [t] is in flight in phase [ph], and is the only job in flight
    with its identifier. *)
Definition in_flight (st : state) (t : task) (ph : phase)
    (before after : list (task * phase)) : Prop :=
  running (queue st) = before ++ (t, ph) :: after /\
  Forall (fun tp => tid (fst tp) <> tid t) before /\
  Forall (fun tp => tid (fst tp) <> tid t) after.

(** How many clients were constructed in a stretch of the log. *)
Fixpoint constructions (evs : list event) : nat :=
  match evs with
  | [] => 0
  | ENewClient _ :: evs' => S (constructions evs')
  | _ :: evs' => constructions evs'
  end.

(** How many teardowns were invoked in a stretch of the log. *)
Fixpoint teardowns (evs : list event) : nat :=
  match evs with
  | [] => 0
  | EDestroy _ :: evs' => S (teardowns evs')
  | _ :: evs' => teardowns evs'
  end.

(** The requests that were replied to, one entry per reply, in order. *)
Fixpoint replied (evs : list event) : list nat :=
  match evs with
  | [] => []
  | EResponse id _ :: evs' => id :: replied evs'
  | _ :: evs' => replied evs'
  end.

(** The requests whose handler rejected without a reply, as recorded by
    [serve]; used to state the invariant behind the facts about replies. *)
Fixpoint rejected (evs : list event) : list nat :=
  match evs with
  | [] => []
  | EUnhandled id _ :: evs' => id :: rejected evs'
  | _ :: evs' => rejected evs'
  end.

(** The messages handed to [client.sendMessage] in a stretch of the log. *)
Fixpoint sends (evs : list event) : list (handle * string * content) :=
  match evs with
  | [] => []
  | ESendMessage h to c :: evs' => (h, to, c) :: sends evs'
  | _ :: evs' => sends evs'
  end.

(** The session variables and the count of constructed clients agree. *)
Definition same_session (st st' : state) : Prop :=
  client st' = client st /\ qrCodeData st' = qrCodeData st /\
  isClientReady st' = isClientReady st /\ isInitializing st' = isInitializing st /\
  constructed st' = constructed st.

Definition running_ids (st : state) : list nat :=
  map (fun tp => tid (fst tp)) (running (queue st)).

Definition waiting_ids (st : state) : list nat := map tid (waiting (queue st)).

(** The jobs in flight other than those of request [id]. *)
Definition others_in_flight (id : nat) (st : state) : list (task * phase) :=
  filter (fun tp => negb (is_task id tp)) (running (queue st)).

(** The inputs served by the lifecycle routes and the signal handlers. *)
Definition lifecycle_input (i : input) : bool :=
  match i with
  | GET_initialize | GET_close | GET_status | Signal _ => true
  | _ => false
  end.

(** A parameter that fails the [!param] test: absent or empty. *)
Definition missing (p : option string) : Prop := p = None \/ p = Some "".

(** What the dispatch side may do in one step: the session variables
    stay as they are, and the events added are no construction, startup
    or teardown of a client. *)
Definition dispatch_only (st st' : state) : Prop :=
  same_session st st' /\
  exists evs, added st st' evs /\
    constructions evs = 0 /\ invocations evs = 0 /\ teardowns evs = 0.

(** The handle in [client], if any, is the client constructed last. *)
Definition holds_latest (st : state) : Prop :=
  match client st with
  | Some h => constructed st = S h
  | None => True
  end.

(** Events of the dispatch side. *)
Definition dispatch_event (e : event) : Prop :=
  constructions [e] = 0 /\ invocations [e] = 0 /\ teardowns [e] = 0.

(** What a lifecycle route or a signal may do in one step: the queue
    stays as it is, no job is invoked and no message is sent. *)
Definition lifecycle_only (st st' : state) : Prop :=
  queue st' = queue st /\
  exists evs, added st st' evs /\ admissions evs = [] /\ sends evs = [].

(** The requests served so far by the event loop: replied to, rejected
    by their handler, in flight or pending. *)
Definition accounted (st : state) : list nat :=
  replied (log st) ++ rejected (log st) ++ running_ids st ++ waiting_ids st.

(** A job is pending only while every slot is taken. *)
Definition saturated (st : state) : Prop :=
  waiting (queue st) = [] \/ concurrency (queue st) <= length (running (queue st)).

(** ** Facts about the pure helpers *)

Example split_pic : Js.pop (Js.split "/" "https://cdn.example/a/pic.png") = Some "pic.png".
Proof. reflexivity. Qed.

Example base64_two_octets : Base64.encode [1; 2]%Z = "AQI=".
Proof. reflexivity. Qed.

Example base64_Man : Base64.encode [77; 97; 110]%Z = "TWFu".
Proof. reflexivity. Qed.

Example chatId_example : chatId "5551234567" = "5551234567@c.us".
Proof. reflexivity. Qed.

Lemma split_nonempty sep s : Js.split sep s <> [].
Proof.
  destruct s as [|c s]; simpl; [discriminate|].
  destruct (Ascii.eqb c sep); [discriminate|].
  destruct (Js.split sep s); discriminate.
Qed.

(** Joining the segments with the separator gives the string back. *)
Lemma concat_split (sep : ascii) (s : string) :
  String.concat (String sep "") (Js.split sep s) = s.
Proof.
  induction s as [|c s IH]; [reflexivity|].
  simpl. pose proof (split_nonempty sep s) as Hne.
  destruct (Ascii.eqb_spec c sep) as [->|Hc].
  - destruct (Js.split sep s) as [|seg segs]; [congruence|].
    simpl in *. rewrite IH. reflexivity.
  - destruct (Js.split sep s) as [|seg segs]; [congruence|].
    destruct segs as [|seg' segs]; simpl in *; rewrite <- IH; reflexivity.
Qed.

(** The encoding has four characters for every group of up to three
    octets. *)
Lemma encode_length (octets : list Z) :
  String.length (Base64.encode octets) = 4 * ((length octets + 2) / 3).
Proof.
  assert (H : forall n bs, length bs <= n ->
            String.length (Base64.encode bs) = 4 * ((length bs + 2) / 3)).
  { induction n as [|n IH]; intros bs Hlen.
    - destruct bs; [reflexivity | simpl in Hlen; lia].
    - destruct bs as [|a [|b [|c rest]]]; try reflexivity.
      cbn [Base64.encode String.length length].
      rewrite IH by (simpl in Hlen; lia).
      replace (S (S (S (length rest))) + 2) with (length rest + 2 + 1 * 3) by lia.
      rewrite Nat.div_add by lia. lia. }
  apply (H (length octets)). lia.
Qed.

(** The replies of a log are those of its parts. *)
Lemma replied_app xs ys : replied (xs ++ ys) = replied xs ++ replied ys.
Proof.
  induction xs as [|x xs IH]; simpl; [reflexivity|].
  destruct x; simpl; rewrite IH; reflexivity.
Qed.

(** Property access reads the first binding of the key. *)
Lemma prop_first_binding (key : string) (obj : list (string * string)) :
  Js.prop key obj = option_map snd (find (fun kv => String.eqb (fst kv) key) obj).
Proof.
  induction obj as [|[k v] obj IH]; [reflexivity|].
  simpl. destruct (String.eqb k key); [reflexivity | exact IH].
Qed.

(** *** The encoder against the reference decoder *)

Section Base64Facts.

Local Open Scope Z_scope.

(** Every character the encoder emits for a 6-bit group has that group as
    its value in the table of the RFC. *)
Lemma value_digit n : Base64.value (Base64.digit n) = Some (n mod 64).
Proof.
  unfold Base64.digit. change 63 with (Z.ones 6). rewrite Z.land_ones by lia.
  change (2 ^ 6) with 64.
  assert (Hr : 0 <= n mod 64 < 64) by (apply Z.mod_pos_bound; lia).
  rewrite <- (Z2Nat.id (n mod 64)) at 2 by lia.
  assert (Hk : (Z.to_nat (n mod 64) < 64)%nat) by lia.
  clear Hr. revert Hk. generalize (Z.to_nat (n mod 64)). intros k Hk.
  do 64 (destruct k as [|k]; [reflexivity|]). lia.
Qed.

(** The encoder emits padding only at the end of the last group. *)
Lemma digit_not_pad n : Ascii.eqb (Base64.digit n) Base64.pad = false.
Proof.
  destruct (Ascii.eqb_spec (Base64.digit n) Base64.pad) as [E|E]; [|reflexivity].
  pose proof (value_digit n) as H. rewrite E in H. discriminate.
Qed.

(** Bitwise or of disjoint bit ranges is addition. *)
Lemma lor_shiftl_add x y k :
  0 <= k -> 0 <= y < 2 ^ k -> Z.lor (Z.shiftl x k) y = x * 2 ^ k + y.
Proof.
  intros Hk Hy.
  assert (Hland : Z.land (Z.shiftl x k) y = 0).
  { apply Z.bits_inj'. intros n Hn. rewrite Z.land_spec, Z.bits_0.
    destruct (Z.lt_ge_cases n k) as [Hlt|Hge].
    - rewrite Z.shiftl_spec_low by lia. reflexivity.
    - rewrite <- (Z.mod_small y (2 ^ k)) by lia.
      rewrite Z.mod_pow2_bits_high by lia. apply andb_false_r. }
  rewrite <- Z.lxor_lor, <- Z.add_nocarry_lxor, Z.shiftl_mul_pow2 by assumption.
  reflexivity.
Qed.

Lemma octet_range a : 0 <= Z.land a 255 < 256.
Proof.
  change 255 with (Z.ones 8). rewrite Z.land_ones by lia. apply Z.mod_pos_bound. lia.
Qed.

(** The 24-bit word of three octets. *)
Lemma pack3 a b c :
  0 <= a < 256 -> 0 <= b < 256 -> 0 <= c < 256 ->
  Z.lor (Z.lor (Z.shiftl a 16) (Z.shiftl b 8)) c = a * 65536 + b * 256 + c.
Proof.
  intros Ha Hb Hc.
  assert (E : Z.shiftl b 8 = b * 256) by (rewrite Z.shiftl_mul_pow2 by lia; reflexivity).
  rewrite E. rewrite lor_shiftl_add; [| lia | change (2 ^ 16) with 65536; lia].
  change (2 ^ 16) with 65536.
  assert (E' : a * 65536 + b * 256 = Z.shiftl (a * 256 + b) 8)
    by (rewrite Z.shiftl_mul_pow2 by lia; change (2 ^ 8) with 256; lia).
  rewrite E' at 1. rewrite lor_shiftl_add by (change (2 ^ 8) with 256; lia).
  change (2 ^ 8) with 256. lia.
Qed.

Lemma pack2 a b :
  0 <= a < 256 -> 0 <= b < 256 ->
  Z.lor (Z.shiftl a 16) (Z.shiftl b 8) = a * 65536 + b * 256.
Proof.
  intros Ha Hb. pose proof (pack3 a b 0 Ha Hb ltac:(lia)) as H.
  rewrite Z.lor_0_r in H. lia.
Qed.

Lemma sextet_value w i :
  0 <= i <= 3 ->
  Base64.value (Base64.sextet w i) = Some ((w / 2 ^ (18 - 6 * i)) mod 64).
Proof.
  intros Hi. unfold Base64.sextet. rewrite value_digit, Z.shiftr_div_pow2 by lia. reflexivity.
Qed.

Lemma sextet_not_pad w i : Ascii.eqb (Base64.sextet w i) Base64.pad = false.
Proof. apply digit_not_pad. Qed.

(** The four sextets of a 24-bit word give its three octets back. *)
Lemma unpack3 a b c :
  0 <= a < 256 -> 0 <= b < 256 -> 0 <= c < 256 ->
  let w := a * 65536 + b * 256 + c in
  Base64.group ((w / 262144) mod 64) ((w / 4096) mod 64) ((w / 64) mod 64) ((w / 1) mod 64)
  = [a; b; c].
Proof.
  intros Ha Hb Hc w. unfold Base64.group. subst w.
  repeat f_equal; Z.div_mod_to_equations; lia.
Qed.

Lemma unpack2 a b :
  0 <= a < 256 -> 0 <= b < 256 ->
  let w := a * 65536 + b * 256 in
  firstn 2 (Base64.group ((w / 262144) mod 64) ((w / 4096) mod 64) ((w / 64) mod 64) 0)
  = [a; b].
Proof.
  intros Ha Hb w. unfold Base64.group. cbn [firstn]. subst w.
  repeat f_equal; Z.div_mod_to_equations; lia.
Qed.

Lemma unpack1 a :
  0 <= a < 256 ->
  let w := a * 65536 in
  firstn 1 (Base64.group ((w / 262144) mod 64) ((w / 4096) mod 64) 0 0) = [a].
Proof.
  intros Ha w. unfold Base64.group. cbn [firstn]. subst w.
  repeat f_equal; Z.div_mod_to_equations; lia.
Qed.

(** Decoding the encoding gives the octets back, each reduced to its low
    eight bits as [Buffer] stores it. *)
Lemma decode_encode octets :
  Base64.decode (Base64.encode octets) = Some (map (fun b => Z.land b 255) octets).
Proof.
  assert (H : forall n bs, (length bs <= n)%nat ->
            Base64.decode (Base64.encode bs) = Some (map (fun b => Z.land b 255) bs)).
  { induction n as [|n IH]; intros bs Hlen.
    - destruct bs; [reflexivity | simpl in Hlen; lia].
    - destruct bs as [|a [|b [|c rest]]]; [reflexivity | | |].
      + pose proof (octet_range a) as Ha.
        cbn [Base64.encode Base64.decode map].
        rewrite !sextet_value by lia.
        change (Ascii.eqb Base64.pad Base64.pad) with true. cbv iota.
        rewrite Z.shiftl_mul_pow2 by lia.
        change (2 ^ (18 - 6 * 0)) with 262144. change (2 ^ (18 - 6 * 1)) with 4096.
        change (2 ^ 16) with 65536.
        rewrite (unpack1 _ Ha).
        replace (((Z.land a 255 * 65536 / 4096) mod 64) mod 16 =? 0) with true
          by (symmetry; apply Z.eqb_eq; Z.div_mod_to_equations; lia).
        reflexivity.
      + pose proof (octet_range a) as Ha. pose proof (octet_range b) as Hb.
        cbn [Base64.encode Base64.decode map].
        rewrite !sextet_value by lia. rewrite !sextet_not_pad.
        change (Ascii.eqb Base64.pad Base64.pad) with true. cbv iota.
        rewrite pack2 by assumption.
        change (2 ^ (18 - 6 * 0)) with 262144. change (2 ^ (18 - 6 * 1)) with 4096.
        change (2 ^ (18 - 6 * 2)) with 64.
        rewrite (unpack2 _ _ Ha Hb).
        replace ((((Z.land a 255 * 65536 + Z.land b 255 * 256) / 64) mod 64) mod 4 =? 0)
          with true by (symmetry; apply Z.eqb_eq; Z.div_mod_to_equations; lia).
        reflexivity.
      + pose proof (octet_range a) as Ha. pose proof (octet_range b) as Hb.
        pose proof (octet_range c) as Hc.
        cbn [Base64.encode Base64.decode map].
        rewrite !sextet_value by lia. rewrite !sextet_not_pad.
        rewrite IH by (simpl in Hlen; lia).
        rewrite pack3 by assumption.
        change (2 ^ (18 - 6 * 0)) with 262144. change (2 ^ (18 - 6 * 1)) with 4096.
        change (2 ^ (18 - 6 * 2)) with 64. change (2 ^ (18 - 6 * 3)) with 1.
        rewrite (unpack3 _ _ _ Ha Hb Hc). reflexivity. }
  apply (H (length octets)). lia.
Qed.

(** On octets proper the round trip is the identity. *)
Lemma decode_encode_octets octets :
  Forall (fun b => 0 <= b < 256) octets ->
  Base64.decode (Base64.encode octets) = Some octets.
Proof.
  intros H. rewrite decode_encode. f_equal.
  induction H as [|b bs Hb _ IH]; [reflexivity|].
  cbn [map]. rewrite IH. f_equal.
  change 255 with (Z.ones 8). rewrite Z.land_ones by lia. apply Z.mod_small. exact Hb.
Qed.

Lemma digit_mod n : Base64.digit n = Base64.digit (n mod 64).
Proof.
  unfold Base64.digit. change 63 with (Z.ones 6). rewrite !Z.land_ones by lia.
  change (2 ^ 6) with 64. rewrite Z.mod_mod by lia. reflexivity.
Qed.

(** A character with a value is the digit of that value. *)
Lemma digit_value c v : Base64.value c = Some v -> Base64.digit v = c /\ 0 <= v < 64.
Proof.
  destruct c as [[] [] [] [] [] [] [] []]; vm_compute; intros H; try discriminate;
    injection H as <-; repeat split; discriminate.
Qed.

Lemma sextet_digit w i v c :
  0 <= i <= 3 -> (w / 2 ^ (18 - 6 * i)) mod 64 = v -> Base64.digit v = c ->
  Base64.sextet w i = c.
Proof.
  intros Hi Hv Hc. unfold Base64.sextet. rewrite digit_mod, Z.shiftr_div_pow2 by lia.
  rewrite Hv. exact Hc.
Qed.

(** The encoder reads the low eight bits of every octet only. *)
Lemma encode_land octets :
  Base64.encode (map (fun b => Z.land b 255) octets) = Base64.encode octets.
Proof.
  assert (E : forall b, Z.land (Z.land b 255) 255 = Z.land b 255).
  { intros b. rewrite <- Z.land_assoc. reflexivity. }
  assert (H : forall n bs, (length bs <= n)%nat ->
            Base64.encode (map (fun b => Z.land b 255) bs) = Base64.encode bs).
  { induction n as [|n IH]; intros bs Hlen.
    - destruct bs; [reflexivity | simpl in Hlen; lia].
    - destruct bs as [|a [|b [|c rest]]]; cbn [map Base64.encode]; rewrite ?E; try reflexivity.
      rewrite IH by (simpl in Hlen; lia). reflexivity. }
  apply (H (length octets)). lia.
Qed.

Lemma land_octet x : Z.land (x mod 256) 255 = x mod 256.
Proof.
  change 255 with (Z.ones 8). rewrite Z.land_ones by lia. change (2 ^ 8) with 256.
  apply Z.mod_mod. lia.
Qed.

(** The octets of four sextets pack into a word with these sextets. *)
Lemma repack v0 v1 v2 v3 :
  0 <= v0 < 64 -> 0 <= v1 < 64 -> 0 <= v2 < 64 -> 0 <= v3 < 64 ->
  let w := ((v0 * 4 + v1 / 16) mod 256) * 65536 + ((v1 * 16 + v2 / 4) mod 256) * 256
           + (v2 * 64 + v3) mod 256 in
  (w / 262144) mod 64 = v0 /\ (w / 4096) mod 64 = v1 /\
  (w / 64) mod 64 = v2 /\ (w / 1) mod 64 = v3.
Proof.
  intros H0 H1 H2 H3 w. subst w.
  assert (Ea : (v0 * 4 + v1 / 16) mod 256 = v0 * 4 + v1 / 16)
    by (apply Z.mod_small; Z.div_mod_to_equations; lia).
  assert (Eb : (v1 * 16 + v2 / 4) mod 256 = (v1 mod 16) * 16 + v2 / 4)
    by (Z.div_mod_to_equations; lia).
  assert (Ec : (v2 * 64 + v3) mod 256 = (v2 mod 4) * 64 + v3)
    by (Z.div_mod_to_equations; lia).
  rewrite Ea, Eb, Ec. repeat split; Z.div_mod_to_equations; lia.
Qed.

(** Encoding what the decoder reads from a string gives the string back. *)
Lemma encode_decode s : forall octets,
  Base64.decode s = Some octets -> Base64.encode octets = s.
Proof.
  assert (H : forall n s, (String.length s <= n)%nat -> forall octets,
            Base64.decode s = Some octets -> Base64.encode octets = s).
  { induction n as [|n IH]; intros s0 Hlen octets.
    - destruct s0; [intros [= <-]; reflexivity | simpl in Hlen; lia].
    - destruct s0 as [|c0 [|c1 [|c2 [|c3 rest]]]]; try discriminate;
        [intros [= <-]; reflexivity|].
      cbn [Base64.decode].
      destruct (Base64.value c0) as [v0|] eqn:E0; [|discriminate].
      destruct (Base64.value c1) as [v1|] eqn:E1; [|discriminate].
      destruct (digit_value _ _ E0) as (D0 & R0). destruct (digit_value _ _ E1) as (D1 & R1).
      destruct (Ascii.eqb_spec c2 Base64.pad) as [P2|P2].
      + destruct (Ascii.eqb_spec c3 Base64.pad) as [P3|P3]; [|discriminate].
        destruct rest; [|discriminate].
        destruct (Z.eqb_spec (v1 mod 16) 0) as [Z1|Z1]; [|discriminate].
        intros [= <-]. subst c2 c3. cbn [firstn Base64.group Base64.encode].
        rewrite land_octet, Z.shiftl_mul_pow2 by lia. change (2 ^ 16) with 65536.
        destruct (repack v0 v1 0 0 R0 R1 ltac:(lia) ltac:(lia)) as (S0 & S1 & _).
        cbv zeta in S0, S1.
        replace ((v1 * 16 + 0 / 4) mod 256) with 0 in S0, S1
          by (Z.div_mod_to_equations; lia).
        replace ((0 * 64 + 0) mod 256) with 0 in S0, S1 by reflexivity.
        rewrite !Z.add_0_r in S0, S1.
        f_equal; [|f_equal].
        * apply (sextet_digit _ 0 v0); [lia|exact S0|exact D0].
        * apply (sextet_digit _ 1 v1); [lia|exact S1|exact D1].
      + destruct (Base64.value c2) as [v2|] eqn:E2; [|discriminate].
        destruct (digit_value _ _ E2) as (D2 & R2).
        destruct (Ascii.eqb_spec c3 Base64.pad) as [P3|P3].
        * destruct rest; [|discriminate].
          destruct (Z.eqb_spec (v2 mod 4) 0) as [Z2|Z2]; [|discriminate].
          intros [= <-]. subst c3. cbn [firstn Base64.group Base64.encode].
          rewrite !land_octet, pack2 by (apply Z.mod_pos_bound; lia).
          destruct (repack v0 v1 v2 0 R0 R1 R2 ltac:(lia)) as (S0 & S1 & S2 & _).
          cbv zeta in S0, S1, S2.
          replace ((v2 * 64 + 0) mod 256) with 0 in S0, S1, S2
            by (Z.div_mod_to_equations; lia).
          rewrite !Z.add_0_r in S0, S1, S2.
          f_equal; [|f_equal; [|f_equal]].
          -- apply (sextet_digit _ 0 v0); [lia|exact S0|exact D0].
          -- apply (sextet_digit _ 1 v1); [lia|exact S1|exact D1].
          -- apply (sextet_digit _ 2 v2); [lia|exact S2|exact D2].
        * destruct (Base64.value c3) as [v3|] eqn:E3; [|discriminate].
          destruct (digit_value _ _ E3) as (D3 & R3).
          destruct (Base64.decode rest) as [tail|] eqn:Er; [|discriminate].
          intros [= <-]. cbn [Base64.group app Base64.encode].
          rewrite (IH rest) with (octets := tail) by (simpl in Hlen; lia || exact Er).
          rewrite !land_octet, pack3 by (apply Z.mod_pos_bound; lia).
          destruct (repack v0 v1 v2 v3 R0 R1 R2 R3) as (S0 & S1 & S2 & S3).
          cbv zeta in S0, S1, S2, S3.
          f_equal; [|f_equal; [|f_equal; [|f_equal]]].
          -- apply (sextet_digit _ 0 v0); [lia|exact S0|exact D0].
          -- apply (sextet_digit _ 1 v1); [lia|exact S1|exact D1].
          -- apply (sextet_digit _ 2 v2); [lia|exact S2|exact D2].
          -- apply (sextet_digit _ 3 v3); [lia|exact S3|exact D3]. }
  intros octets. apply (H (String.length s)). lia.
Qed.

(** The encoding is the only string the decoder reads as these octets. *)
Lemma encode_unique octets s :
  Base64.decode s = Some (map (fun b => Z.land b 255) octets) -> s = Base64.encode octets.
Proof.
  intros H. apply encode_decode in H. rewrite encode_land in H. symmetry. exact H.
Qed.

End Base64Facts.

Lemma split_single (u x : string) : Js.split "/" u = [x] -> u = x.
Proof.
  revert x. induction u as [|c u IH]; intros x; simpl.
  - intros [= <-]. reflexivity.
  - pose proof (split_nonempty "/" u) as Hne.
    destruct (Ascii.eqb c "/").
    + destruct (Js.split "/" u); [congruence | discriminate].
    + destruct (Js.split "/" u) as [|seg segs]; [congruence|].
      intros [= <- ->]. rewrite (IH seg eq_refl). reflexivity.
Qed.

(** The popped segment is free of the separator and is a suffix of the
    string, preceded by a separator unless it is the whole string. *)
Lemma pop_split_spec (u : string) :
  exists seg, Js.pop (Js.split "/" u) = Some seg /\ no_slash seg /\
    (u = seg \/ exists pre, u = String.append pre (String "/" seg)).
Proof.
  induction u as [|c u IH].
  - exists "". simpl. auto.
  - destruct IH as (seg & Hpop & Hfree & Hsuf).
    simpl. destruct (Ascii.eqb_spec c "/") as [->|Hc].
    + exists seg. pose proof (split_nonempty "/" u) as Hne.
      destruct (Js.split "/" u) as [|x xs] eqn:E; [congruence|].
      split; [exact Hpop|]. split; [exact Hfree|].
      right. destruct Hsuf as [->|(pre & ->)].
      * exists "". reflexivity.
      * exists (String "/" pre). reflexivity.
    + destruct (Js.split "/" u) as [|x xs] eqn:E; [discriminate|].
      destruct xs as [|y ys].
      * simpl in Hpop. injection Hpop as <-.
        apply split_single in E. subst u.
        exists (String c x). split; [reflexivity|].
        split; [simpl; auto|]. left. reflexivity.
      * exists seg. split; [exact Hpop|]. split; [exact Hfree|].
        right. destruct Hsuf as [Hu|(pre & Hu)].
        -- exfalso. subst u.
           assert (Hone : forall s, no_slash s -> Js.split "/" s = [s]).
           { clear. induction s as [|a s IHs]; simpl; [reflexivity|].
             intros [Ha Hs]. destruct (Ascii.eqb_spec a "/"); [contradiction|].
             rewrite (IHs Hs). reflexivity. }
           rewrite (Hone _ Hfree) in E. discriminate.
        -- exists (String c pre). rewrite Hu. reflexivity.
Qed.

(** ** The startup retry loop *)

Lemma deliver_plumbing s st : same_plumbing st (deliver s st).
Proof. destruct s; repeat split. Qed.

Lemma deliver_all_plumbing sigs st : same_plumbing st (deliver_all sigs st).
Proof.
  revert st. induction sigs as [|s sigs IH]; intros st; simpl.
  - repeat split.
  - destruct (IH (deliver s st)) as (H1 & H2 & H3 & H4 & H5 & H6).
    destruct (deliver_plumbing s st) as (G1 & G2 & G3 & G4 & G5 & G6).
    repeat split; congruence.
Qed.

Section RetryLoop.

Variable world : env.

Lemma after_attempt_frame st :
  log (after_attempt world st) = log st ++ attempt (constructed st) /\
  client (after_attempt world st) = Some (constructed st) /\
  constructed (after_attempt world st) = S (constructed st) /\
  queue (after_attempt world st) = queue st /\
  requests (after_attempt world st) = requests st /\
  isInitializing (after_attempt world st) = isInitializing st.
Proof.
  unfold after_attempt.
  match goal with |- context [deliver_all ?l ?s] =>
    destruct (deliver_all_plumbing l s) as (H1 & H2 & H3 & H4 & H5 & H6) end.
  rewrite H1, H2, H3, H4, H5, H6. simpl.
  rewrite <- app_assoc. repeat split.
Qed.

Lemma after_attempt_silent st :
  silent world (constructed st) ->
  isClientReady (after_attempt world st) = isClientReady st /\
  qrCodeData (after_attempt world st) = qrCodeData st.
Proof. unfold silent, after_attempt. intros ->. split; reflexivity. Qed.

(** One iteration of the loop. *)
Lemma attempts_S retries r st :
  attempts world retries (S r) st =
  match snd (startup world (constructed st)) with
  | None => (Ok true, after_attempt world st)
  | Some e =>
      if Nat.eqb (retries - S r) (retries - 1) then (Throw e, after_attempt world st)
      else attempts world retries r (emit (ESleep 5000%Z) (after_attempt world st))
  end.
Proof.
  unfold after_attempt. simpl.
  unfold try_catch, bind, new_Client, exec, client_initialize, sleep, ret, throw. simpl.
  destruct (snd (startup world (constructed st))); [|reflexivity].
  destruct (Nat.eqb _ _); reflexivity.
Qed.

Lemma not_last_iteration retries r : S (S r) <= retries ->
  Nat.eqb (retries - S (S r)) (retries - 1) = false.
Proof. intros H. apply Nat.eqb_neq. lia. Qed.

(** [k] rejections followed by a resolution, with more than [k]
    iterations left: the loop returns [true] after [k + 1] attempts. *)
Lemma attempts_resolve retries k : forall r st,
  k < r -> r <= retries ->
  (forall j, j < k -> fails world (constructed st + j)) ->
  succeeds world (constructed st + k) ->
  exists st',
    attempts world retries r st = (Ok true, st') /\
    log st' = log st ++ failed_attempts (constructed st) k ++ attempt (constructed st + k) /\
    client st' = Some (constructed st + k) /\
    constructed st' = S (constructed st + k) /\
    queue st' = queue st /\ requests st' = requests st /\
    isInitializing st' = isInitializing st.
Proof.
  induction k as [|k IH]; intros r st Hk Hr Hfail Hok.
  - destruct r as [|r]; [lia|]. rewrite attempts_S.
    unfold succeeds in Hok. rewrite Nat.add_0_r in Hok. rewrite Hok.
    destruct (after_attempt_frame st) as (H1 & H2 & H3 & H4 & H5 & H6).
    exists (after_attempt world st). rewrite Nat.add_0_r. simpl. auto 10.
  - destruct r as [|[|r]]; [lia | lia |]. rewrite attempts_S.
    pose proof (Hfail 0 ltac:(lia)) as H0. unfold fails in H0.
    rewrite Nat.add_0_r in H0.
    destruct (snd (startup world (constructed st))) as [e|]; [|congruence].
    rewrite not_last_iteration by lia.
    destruct (after_attempt_frame st) as (H1 & H2 & H3 & H4 & H5 & H6).
    set (st1 := emit (ESleep 5000%Z) (after_attempt world st)).
    assert (Hc : constructed st1 = S (constructed st)) by exact H3.
    destruct (IH (S r) st1) as (st' & E & L & C & N & Q & R & I); try lia.
    + intros j Hj. rewrite Hc. replace (S (constructed st) + j) with (constructed st + S j) by lia.
      apply Hfail. lia.
    + rewrite Hc. replace (S (constructed st) + k) with (constructed st + S k) by lia. exact Hok.
    + exists st'. rewrite Hc in *. 
      replace (S (constructed st) + k) with (constructed st + S k) in * by lia.
      split; [exact E|]. split.
      * rewrite L. unfold st1. simpl. rewrite H1. rewrite <- !app_assoc. reflexivity.
      * repeat split; try assumption; unfold st1 in *; simpl in *; congruence.
Qed.

(** Every remaining attempt rejects: the loop throws the last error. *)
Lemma attempts_exhaust retries : forall r st,
  r < retries ->
  (forall j, j <= r -> fails world (constructed st + j)) ->
  exists e st',
    attempts world retries (S r) st = (Throw e, st') /\
    snd (startup world (constructed st + r)) = Some e /\
    log st' = log st ++ failed_attempts (constructed st) r ++ attempt (constructed st + r) /\
    client st' = Some (constructed st + r) /\
    constructed st' = S (constructed st + r) /\
    queue st' = queue st /\ requests st' = requests st /\
    isInitializing st' = isInitializing st.
Proof.
  induction r as [|r IH]; intros st Hr Hfail.
  - rewrite attempts_S.
    pose proof (Hfail 0 ltac:(lia)) as H0. unfold fails in H0.
    rewrite Nat.add_0_r in *.
    destruct (snd (startup world (constructed st))) as [e|] eqn:E; [|congruence].
    assert (Hlast : Nat.eqb (retries - 1) (retries - 1) = true) by apply Nat.eqb_refl.
    rewrite Hlast.
    destruct (after_attempt_frame st) as (H1 & H2 & H3 & H4 & H5 & H6).
    exists e, (after_attempt world st). simpl. auto 10.
  - rewrite attempts_S.
    pose proof (Hfail 0 ltac:(lia)) as H0. unfold fails in H0.
    rewrite Nat.add_0_r in H0.
    destruct (snd (startup world (constructed st))) as [e0|]; [|congruence].
    rewrite not_last_iteration by lia.
    destruct (after_attempt_frame st) as (H1 & H2 & H3 & H4 & H5 & H6).
    set (st1 := emit (ESleep 5000%Z) (after_attempt world st)).
    assert (Hc : constructed st1 = S (constructed st)) by exact H3.
    destruct (IH st1) as (e & st' & E & Hlast & L & C & N & Q & R & I); try lia.
    + intros j Hj. rewrite Hc. replace (S (constructed st) + j) with (constructed st + S j) by lia.
      apply Hfail. lia.
    + exists e, st'. rewrite Hc in *.
      replace (S (constructed st) + r) with (constructed st + S r) in * by lia.
      split; [exact E|]. split; [exact Hlast|]. split.
      * rewrite L. unfold st1. simpl. rewrite H1. rewrite <- !app_assoc. reflexivity.
      * repeat split; try assumption; unfold st1 in *; simpl in *; congruence.
Qed.

(** With at least one iteration to go the loop never reaches
    [return false]: it returns [true], or throws what the last attempt
    rejected with. *)
Lemma attempts_outcome retries : forall r st,
  r < retries ->
  fst (attempts world retries (S r) st) = Ok true \/
  exists e, fst (attempts world retries (S r) st) = Throw e /\
            snd (startup world (constructed st + r)) = Some e.
Proof.
  induction r as [|r IH]; intros st Hr; rewrite attempts_S.
  - destruct (snd (startup world (constructed st))) as [e|] eqn:E; [|left; reflexivity].
    right. assert (Hlast : Nat.eqb (retries - 1) (retries - 1) = true) by apply Nat.eqb_refl.
    rewrite Hlast. exists e. rewrite Nat.add_0_r. auto.
  - destruct (snd (startup world (constructed st))) as [e|] eqn:E; [|left; reflexivity].
    rewrite not_last_iteration by lia.
    destruct (after_attempt_frame st) as (_ & _ & H3 & _).
    destruct (IH (emit (ESleep 5000%Z) (after_attempt world st))) as [Ht|(e' & Ht & He)];
      [lia | left; exact Ht |].
    right. exists e'. split; [exact Ht|]. simpl in He. rewrite H3 in He.
    replace (constructed st + S r) with (S (constructed st) + r) by lia. exact He.
Qed.

(** The loop only appends to the log, starting with a construction. *)
Lemma attempts_log retries : forall r st,
  exists tl, added st (snd (attempts world retries r st)) tl.
Proof.
  unfold added. induction r as [|r IH]; intros st.
  - exists []. simpl. symmetry. apply app_nil_r.
  - rewrite attempts_S.
    destruct (after_attempt_frame st) as (H1 & _).
    destruct (snd (startup world (constructed st))) as [e|]; [|eexists; exact H1].
    destruct (Nat.eqb _ _); [eexists; exact H1|].
    destruct (IH (emit (ESleep 5000%Z) (after_attempt world st))) as (tl & Htl).
    rewrite Htl. simpl. rewrite H1. rewrite <- !app_assoc. eexists. reflexivity.
Qed.

Lemma attempts_constructs_first retries r st :
  exists tl, added st (snd (attempts world retries (S r) st)) (ENewClient (constructed st) :: tl).
Proof.
  unfold added. rewrite attempts_S.
  destruct (after_attempt_frame st) as (H1 & _).
  destruct (snd (startup world (constructed st))) as [e|]; [|eexists; exact H1].
  destruct (Nat.eqb _ _); [eexists; exact H1|].
  destruct (attempts_log retries r (emit (ESleep 5000%Z) (after_attempt world st))) as (tl & Htl).
  unfold added in Htl. rewrite Htl. simpl. rewrite H1. rewrite <- !app_assoc.
  eexists. reflexivity.
Qed.

Lemma attempts_silent retries : forall r st,
  (forall j, j < r -> silent world (constructed st + j)) ->
  isClientReady (snd (attempts world retries r st)) = isClientReady st /\
  qrCodeData (snd (attempts world retries r st)) = qrCodeData st.
Proof.
  induction r as [|r IH]; intros st Hs; [split; reflexivity|].
  rewrite attempts_S.
  pose proof (Hs 0 ltac:(lia)) as H0. rewrite Nat.add_0_r in H0.
  destruct (after_attempt_silent st H0) as (R & Q).
  destruct (snd (startup world (constructed st))) as [e|]; [|simpl; auto].
  destruct (Nat.eqb _ _); [simpl; auto|].
  destruct (after_attempt_frame st) as (_ & _ & H3 & _).
  destruct (IH (emit (ESleep 5000%Z) (after_attempt world st))) as (R' & Q').
  - intros j Hj. simpl. rewrite H3.
    replace (S (constructed st) + j) with (constructed st + S j) by lia. apply Hs. lia.
  - rewrite R', Q'. simpl. auto.
Qed.

End RetryLoop.

(** ** Closing and initializing *)

Lemma invocations_app xs ys : invocations (xs ++ ys) = invocations xs + invocations ys.
Proof.
  induction xs as [|x xs IH]; simpl; [reflexivity|].
  destruct x; simpl; rewrite IH; reflexivity.
Qed.

Lemma delays_app xs ys : delays (xs ++ ys) = delays xs ++ delays ys.
Proof.
  induction xs as [|x xs IH]; simpl; [reflexivity|].
  destruct x; simpl; rewrite IH; reflexivity.
Qed.

Lemma admissions_app xs ys : admissions (xs ++ ys) = admissions xs ++ admissions ys.
Proof.
  induction xs as [|x xs IH]; simpl; [reflexivity|].
  destruct x; simpl; rewrite IH; reflexivity.
Qed.

Lemma invocations_failed_attempts h k : invocations (failed_attempts h k) = k.
Proof. revert h. induction k as [|k IH]; intros h; simpl; [|rewrite IH]; reflexivity. Qed.

Lemma delays_failed_attempts h k : delays (failed_attempts h k) = repeat 5000%Z k.
Proof. revert h. induction k as [|k IH]; intros h; simpl; [|rewrite IH]; reflexivity. Qed.

Lemma admissions_failed_attempts h k : admissions (failed_attempts h k) = [].
Proof. revert h. induction k as [|k IH]; intros h; simpl; [|rewrite IH]; reflexivity. Qed.

Lemma invocations_retry_trace h k h' :
  invocations (failed_attempts h k ++ attempt h') = k + 1.
Proof. rewrite invocations_app, invocations_failed_attempts. reflexivity. Qed.

Lemma delays_retry_trace h k h' :
  delays (failed_attempts h k ++ attempt h') = repeat 5000%Z k.
Proof. rewrite delays_app, delays_failed_attempts. simpl. apply app_nil_r. Qed.

Section Handlers.

Variable world : env.

Lemma closeWhatsAppSession_eq st :
  closeWhatsAppSession world st =
  match client st with
  | None => (Ok tt, reset st)
  | Some h =>
      match teardown world h with
      | None => (Ok tt, reset (set_client None (emit (EDestroy h) st)))
      | Some e => (Throw e, emit (EDestroy h) st)
      end
  end.
Proof.
  unfold closeWhatsAppSession, bind, get, exec, ret, client_destroy.
  destruct (client st) as [h|]; [|reflexivity].
  destruct (teardown world h); reflexivity.
Qed.

Lemma app_get_initialize_eq st :
  app_get_initialize world st =
  match forced_close world st with
  | (Throw e, st0) => (Throw e, st0)
  | (Ok _, st0) =>
      match initializeWhatsAppClient world 3 (armed st0) with
      | (Ok true, st1) =>
          (Ok (initialized_response (qrCodeData st1)), set_isInitializing false st1)
      | (Ok false, st1) => (Ok not_initialized_response, set_isInitializing false st1)
      | (Throw e, st1) => (Ok (initialize_error_response e), set_isInitializing false st1)
      end
  end.
Proof.
  unfold app_get_initialize, forced_close, bind, get, try_finally, try_catch, exec, ret, armed.
  destruct (isInitializing st || isClientReady st).
  - destruct (closeWhatsAppSession world st) as [[[]|e] st0]; [|reflexivity].
    destruct (initializeWhatsAppClient world 3 _) as [[[|]|e] st1]; reflexivity.
  - destruct (initializeWhatsAppClient world 3 _) as [[[|]|e] st1]; reflexivity.
Qed.

(** When the teardown resolves the forced close adds no startup and no
    delay, and constructs nothing. *)
Lemma forced_close_completes st :
  teardown_completes world st ->
  exists st0 pre,
    forced_close world st = (Ok tt, st0) /\ added st st0 pre /\
    invocations pre = 0 /\ delays pre = [] /\
    constructed st0 = constructed st /\ queue st0 = queue st /\
    requests st0 = requests st.
Proof.
  unfold teardown_completes, forced_close, added. intros Hc.
  destruct (isInitializing st || isClientReady st).
  - rewrite closeWhatsAppSession_eq.
    destruct (client st) as [h|].
    + rewrite Hc. eexists _, [EDestroy h]. simpl. auto 10.
    + eexists _, []. simpl. rewrite app_nil_r. auto 10.
  - exists st, []. rewrite app_nil_r. auto 10.
Qed.

End Handlers.

(** ** Properties of the session lifecycle *)

(** C1.  The startup of the external client runs in a retry loop of at
    most three attempts with a delay of 5000 ms between consecutive
    attempts.  If the startup routine rejects on the first [k < 3] attempts
    and resolves on the next, [initializeWhatsAppClient] returns [true] and
    [/initialize] answers with the success message, the startup routine
    having been invoked exactly [k + 1] times with [k] delays of 5000 ms,
    each after a failed attempt.  If it rejects on all three attempts the
    helper throws the third error after exactly three invocations and two
    delays, and [/initialize] answers with the error reply. *)
Theorem initialize_retries_startup (world : env) (st : state) :
  (forall k, k < 3 ->
     (forall j, j < k -> fails world (constructed st + j)) ->
     succeeds world (constructed st + k) ->
     let evs := failed_attempts (constructed st) k ++ attempt (constructed st + k) in
     (exists st', initializeWhatsAppClient world 3 st = (Ok true, st') /\ added st st' evs) /\
     invocations evs = k + 1 /\ delays evs = repeat 5000%Z k /\
     (teardown_completes world st ->
      exists st' all,
        app_get_initialize world st = (Ok (initialized_response (qrCodeData st')), st') /\
        added st st' all /\ invocations all = k + 1 /\ delays all = repeat 5000%Z k)) /\
  ((forall j, j < 3 -> fails world (constructed st + j)) ->
     let evs := failed_attempts (constructed st) 2 ++ attempt (constructed st + 2) in
     (exists e st', initializeWhatsAppClient world 3 st = (Throw e, st') /\
                    snd (startup world (constructed st + 2)) = Some e /\ added st st' evs) /\
     invocations evs = 3 /\ delays evs = [5000; 5000]%Z /\
     (teardown_completes world st ->
      exists e st' all,
        app_get_initialize world st = (Ok (initialize_error_response e), st') /\
        added st st' all /\ invocations all = 3 /\ delays all = [5000; 5000]%Z)).
Proof.
  split.
  - intros k Hk Hfail Hok evs.
    split; [|split; [apply invocations_retry_trace | split; [apply delays_retry_trace|]]].
    + destruct (attempts_resolve world 3 k 3 st Hk (le_n 3) Hfail Hok) as (st' & E & L & _).
      exists st'. split; [exact E | exact L].
    + intros Hc.
      destruct (forced_close_completes world st Hc) as (st0 & pre & E0 & L0 & I0 & D0 & C0 & _).
      destruct (attempts_resolve world 3 k 3 (armed st0)) as (st1 & E1 & L1 & _);
        try (simpl; rewrite C0); auto.
      exists (set_isInitializing false st1), (pre ++ evs).
      rewrite app_get_initialize_eq, E0.
      unfold initializeWhatsAppClient. rewrite E1.
      split; [reflexivity|]. split.
      * unfold added in *. simpl in *. rewrite L1, L0, C0, <- app_assoc. reflexivity.
      * rewrite invocations_app, delays_app, I0, D0. unfold evs.
        rewrite invocations_retry_trace, delays_retry_trace. split; reflexivity.
  - intros Hfail evs.
    split; [|split; [apply invocations_retry_trace | split; [apply delays_retry_trace|]]].
    + destruct (attempts_exhaust world 3 2 st) as (e & st' & E & Hlast & L & _);
        [lia | intros j Hj; apply Hfail; lia |].
      exists e, st'. auto.
    + intros Hc.
      destruct (forced_close_completes world st Hc) as (st0 & pre & E0 & L0 & I0 & D0 & C0 & _).
      destruct (attempts_exhaust world 3 2 (armed st0)) as (e & st1 & E1 & _ & L1 & _);
        [lia | intros j Hj; simpl; rewrite C0; apply Hfail; lia |].
      exists e, (set_isInitializing false st1), (pre ++ evs).
      rewrite app_get_initialize_eq, E0.
      unfold initializeWhatsAppClient. rewrite E1.
      split; [reflexivity|]. split.
      * unfold added in *. simpl in *. rewrite L1, L0, C0, <- app_assoc. reflexivity.
      * rewrite invocations_app, delays_app, I0, D0. unfold evs.
        rewrite invocations_retry_trace, delays_retry_trace. split; reflexivity.
Qed.

Lemma initialize_retries_startup_witness :
  (exists st' all,
     app_get_initialize (resolves_after 2) initial_state =
       (Ok (initialized_response (qrCodeData st')), st') /\
     added initial_state st' all /\ invocations all = 3 /\ delays all = [5000; 5000]%Z) /\
  (exists e st' all,
     app_get_initialize always_rejects initial_state =
       (Ok (initialize_error_response e), st') /\
     added initial_state st' all /\ invocations all = 3 /\ delays all = [5000; 5000]%Z).
Proof.
  split.
  - destruct (initialize_retries_startup (resolves_after 2) initial_state) as [Hresolve _].
    assert (Hk : 2 < 3) by lia.
    assert (Hfail : forall j, j < 2 -> fails (resolves_after 2) (constructed initial_state + j)).
    { intros j Hj. unfold fails. destruct j as [|[|j]]; [discriminate | discriminate | lia]. }
    assert (Hok : succeeds (resolves_after 2) (constructed initial_state + 2)) by reflexivity.
    destruct (Hresolve 2 Hk Hfail Hok) as (_ & _ & _ & Hhandler).
    apply Hhandler. exact I.
  - destruct (initialize_retries_startup always_rejects initial_state) as [_ Hexhaust].
    assert (Hfail : forall j, j < 3 -> fails always_rejects (constructed initial_state + j)).
    { intros j Hj. unfold fails. discriminate. }
    destruct (Hexhaust Hfail) as (_ & _ & _ & Hhandler).
    apply Hhandler. exact I.
Defined.

(** C2 (as amended).  If all three startup attempts reject, [/initialize]
    answers 500 with the message and stack of the third error, and the
    initializing marker is false.  The handle constructed by the third
    attempt stays in [client]: none of the three handles is torn down.
    The ready flag is false and the challenge payload is empty provided
    the failed attempts emitted no signal. *)
Theorem initialize_exhausted_keeps_last_handle (world : env) (st : state) :
  (forall j, j < 3 -> fails world (constructed st + j)) ->
  teardown_completes world st ->
  exists e st0 st',
    forced_close world st = (Ok tt, st0) /\
    app_get_initialize world st = (Ok (initialize_error_response e), st') /\
    snd (startup world (constructed st + 2)) = Some e /\
    status (initialize_error_response e) = 500 /\
    added st0 st' (failed_attempts (constructed st) 2 ++ attempt (constructed st + 2)) /\
    isInitializing st' = false /\
    client st' = Some (constructed st + 2) /\
    ((forall j, j < 3 -> silent world (constructed st + j)) ->
     isClientReady st' = false /\ qrCodeData st' = None).
Proof.
  intros Hfail Hc.
  destruct (forced_close_completes world st Hc) as (st0 & pre & E0 & L0 & I0 & D0 & C0 & _).
  destruct (attempts_exhaust world 3 2 (armed st0)) as (e & st1 & E1 & Hlast & L1 & C1 & _);
    [lia | intros j Hj; simpl; rewrite C0; apply Hfail; lia |].
  simpl in Hlast, L1, C1. rewrite C0 in Hlast, L1, C1.
  exists e, st0, (set_isInitializing false st1).
  rewrite app_get_initialize_eq, E0. unfold initializeWhatsAppClient. rewrite E1.
  repeat split; try assumption.
  - destruct (attempts_silent world 3 3 (armed st0)) as (R & _).
    { intros j Hj. simpl. rewrite C0. auto. }
    rewrite E1 in R. exact R.
  - destruct (attempts_silent world 3 3 (armed st0)) as (_ & Q).
    { intros j Hj. simpl. rewrite C0. auto. }
    rewrite E1 in Q. exact Q.
Qed.

Lemma initialize_exhausted_keeps_last_handle_witness :
  exists e st0 st',
    forced_close always_rejects initial_state = (Ok tt, st0) /\
    app_get_initialize always_rejects initial_state = (Ok (initialize_error_response e), st') /\
    snd (startup always_rejects 2) = Some e /\
    status (initialize_error_response e) = 500 /\
    added st0 st' (failed_attempts 0 2 ++ attempt 2) /\
    isInitializing st' = false /\
    client st' = Some 2 /\
    ((forall j, j < 3 -> silent always_rejects (constructed initial_state + j)) ->
     isClientReady st' = false /\ qrCodeData st' = None).
Proof.
  apply (initialize_exhausted_keeps_last_handle always_rejects initial_state).
  - intros j Hj. unfold fails. discriminate.
  - exact I.
Defined.

(** C2, as stated, fails: after three rejected attempts from the initial
    state the reply is the 500 error, yet the state is not Absent, because
    [client] still holds the handle of the third attempt. *)
Lemma initialize_exhausted_not_absent :
  (forall j, j < 3 -> fails always_rejects (constructed initial_state + j)) /\
  fst (app_get_initialize always_rejects initial_state) =
    Ok (initialize_error_response launch_error) /\
  client (snd (app_get_initialize always_rejects initial_state)) = Some 2 /\
  ~ Absent (snd (app_get_initialize always_rejects initial_state)).
Proof.
  split; [intros j Hj; unfold fails; discriminate|].
  split; [reflexivity|]. split; [reflexivity|].
  intros (Hclient & _). vm_compute in Hclient. discriminate.
Qed.

(** C5.  A call of [/initialize] made while the initializing marker or the
    ready flag is set, with a handle in [client], first invokes the
    teardown of that handle: it is the first event the call adds, so a
    construction of a client in the trace of the call comes after it.  When
    the teardown resolves the next event is the construction of a fresh
    handle; when it rejects, the call rejects and constructs nothing. *)
Theorem initialize_tears_down_first (world : env) (st : state) (h : handle) :
  isInitializing st || isClientReady st = true ->
  client st = Some h ->
  exists tl,
    added st (snd (app_get_initialize world st)) (EDestroy h :: tl) /\
    (forall pre n post,
       EDestroy h :: tl = pre ++ ENewClient n :: post -> In (EDestroy h) pre) /\
    (teardown world h = None -> exists tl', tl = ENewClient (constructed st) :: tl') /\
    (forall e, teardown world h = Some e ->
               tl = [] /\ fst (app_get_initialize world st) = Throw e).
Proof.
  intros Hguard Hclient.
  assert (Hfirst : forall tl pre n post,
             EDestroy h :: tl = pre ++ ENewClient n :: post -> In (EDestroy h) pre).
  { intros tl [|x pre] n post; simpl; [discriminate|]. intros [= <- _]. left. reflexivity. }
  rewrite app_get_initialize_eq. unfold forced_close. rewrite Hguard.
  rewrite closeWhatsAppSession_eq, Hclient.
  destruct (teardown world h) as [e|].
  - exists []. simpl. repeat split; auto.
    + apply Hfirst.
    + discriminate.
    + congruence.
  - set (st0 := reset (set_client None (emit (EDestroy h) st))).
    destruct (attempts_constructs_first world 3 2 (armed st0)) as (tl' & Htl').
    exists (ENewClient (constructed st) :: tl').
    split; [|split; [apply Hfirst | split; [eauto | discriminate]]].
    unfold added in *. unfold initializeWhatsAppClient.
    destruct (attempts world 3 3 (armed st0)) as [[[|]|e] st1]; simpl in *;
      rewrite Htl', <- app_assoc; reflexivity.
Qed.

Lemma initialize_tears_down_first_witness :
  exists tl,
    added (run logged_in [GET_initialize] initial_state)
          (snd (app_get_initialize logged_in (run logged_in [GET_initialize] initial_state)))
          (EDestroy 0 :: tl) /\
    (forall pre n post,
       EDestroy 0 :: tl = pre ++ ENewClient n :: post -> In (EDestroy 0) pre) /\
    (teardown logged_in 0 = None -> exists tl', tl = ENewClient 1 :: tl') /\
    (forall e, teardown logged_in 0 = Some e ->
       tl = [] /\
       fst (app_get_initialize logged_in (run logged_in [GET_initialize] initial_state)) = Throw e).
Proof.
  apply (initialize_tears_down_first logged_in (run logged_in [GET_initialize] initial_state) 0);
    reflexivity.
Defined.

(** C6 (as amended).  The four signal handlers change the state as
    follows.  A challenge stores its data-URL rendering as the challenge
    payload; ready sets the ready flag and clears the payload; an
    authentication failure changes nothing; disconnected clears the ready
    flag only: the challenge payload and the handle stay as they were.  No
    handler touches the handle, the initializing marker, the queue or the
    log. *)
Theorem signal_handlers_effects (world : env) (st : state) :
  (forall payload,
     let st' := step world (Signal (qr payload)) st in
     qrCodeData st' = Some (toDataURL payload) /\
     isClientReady st' = isClientReady st /\ same_plumbing st st') /\
  (let st' := step world (Signal ready) st in
   isClientReady st' = true /\ qrCodeData st' = None /\ same_plumbing st st') /\
  (forall msg, step world (Signal (auth_failure msg)) st = st) /\
  (forall reason,
     let st' := step world (Signal (disconnected reason)) st in
     isClientReady st' = false /\ qrCodeData st' = qrCodeData st /\
     same_plumbing st st').
Proof.
  repeat split.
Qed.

(** C6, as stated, fails: a challenge is issued during startup and the
    client then disconnects; the ready flag is false but the challenge
    payload is still there. *)
Lemma disconnected_keeps_challenge :
  let st := run awaiting_scan [GET_initialize] initial_state in
  let st' := step awaiting_scan (Signal (disconnected "NAVIGATION")) st in
  qrCodeData st = Some (toDataURL "2@challenge") /\
  isClientReady st' = false /\
  qrCodeData st' = Some (toDataURL "2@challenge") /\
  qrCodeData st' <> None /\
  ~ Absent st'.
Proof.
  repeat split; try discriminate.
  intros (Hclient & _). discriminate.
Qed.

(** C7.  [closeWhatsAppSession] awaits [client.destroy()] before its
    assignments, outside any [try], and [/close] awaits
    [closeWhatsAppSession] outside any [try] as well.  So whenever [client]
    holds a handle whose teardown rejects, the helper and the route both
    reject with the error of the teardown after that one call and do
    nothing more: the route computes no reply, the handle stays in
    [client], the ready flag, the initializing marker and the challenge
    keep their values, and the state is not Absent.  If the session was
    ready, [/status] still reports [isReady] true.  Every later [/close]
    rejects in the same way. *)
Theorem close_skips_reset_when_teardown_rejects
    (world : env) (st : state) (h : handle) (e : error) :
  client st = Some h -> teardown world h = Some e ->
  closeWhatsAppSession world st = (Throw e, emit (EDestroy h) st) /\
  app_get_close world st = (Throw e, emit (EDestroy h) st) /\
  (let st' := snd (app_get_close world st) in
   client st' = Some h /\
   isClientReady st' = isClientReady st /\
   isInitializing st' = isInitializing st /\
   qrCodeData st' = qrCodeData st /\
   ~ Absent st' /\
   (isClientReady st = true -> status_isReady st' = Some (JBool true))) /\
  (forall n, fst (closes world n st) = repeat (Throw e) n /\
             client (snd (closes world n st)) = Some h /\
             isClientReady (snd (closes world n st)) = isClientReady st /\
             replied (log (snd (closes world n st))) = replied (log st)).
Proof.
  intros Hcl Ht.
  assert (Hclose : forall s, client s = Some h ->
            app_get_close world s = (Throw e, emit (EDestroy h) s)).
  { intros s Hs. unfold app_get_close, bind, ret.
    rewrite closeWhatsAppSession_eq, Hs, Ht. reflexivity. }
  split; [rewrite closeWhatsAppSession_eq, Hcl, Ht; reflexivity|].
  split; [exact (Hclose st Hcl)|].
  split.
  - rewrite (Hclose st Hcl). cbn [snd]. simpl.
    repeat split; try assumption.
    + intros (Hnone & _). simpl in Hnone. congruence.
    + intros Hready. unfold status_isReady. simpl. rewrite Hready. reflexivity.
  - intros n. revert st Hcl. induction n as [|n IH]; intros st Hcl.
    + simpl. auto.
    + cbn [closes]. rewrite (Hclose st Hcl).
      specialize (IH (emit (EDestroy h) st) Hcl).
      destruct (closes world n (emit (EDestroy h) st)) as [rs s'].
      cbn [fst snd] in *. destruct IH as (R & C & F & L).
      cbn [repeat]. rewrite R. repeat split; try assumption.
      rewrite L. simpl. rewrite replied_app. simpl. apply app_nil_r.
Qed.

Lemma close_skips_reset_when_teardown_rejects_witness :
  let st := snd (app_get_initialize stuck_browser initial_state) in
  let e := Error "Target closed" "at destroy" in
  isClientReady st = true /\
  closeWhatsAppSession stuck_browser st = (Throw e, emit (EDestroy 0) st) /\
  app_get_close stuck_browser st = (Throw e, emit (EDestroy 0) st) /\
  ~ Absent (snd (app_get_close stuck_browser st)) /\
  status_isReady (snd (app_get_close stuck_browser st)) = Some (JBool true) /\
  fst (closes stuck_browser 3 st) = [Throw e; Throw e; Throw e].
Proof.
  intros st e.
  assert (Hcl : client st = Some 0) by reflexivity.
  assert (Ht : teardown stuck_browser 0 = Some e) by reflexivity.
  destruct (close_skips_reset_when_teardown_rejects stuck_browser st 0 e Hcl Ht)
    as (H1 & H2 & (_ & _ & _ & _ & H3 & H4) & H5).
  split; [reflexivity|]. split; [exact H1|]. split; [exact H2|].
  split; [exact H3|]. split; [exact (H4 eq_refl)|].
  exact (proj1 (H5 3)).
Defined.

(** X17.  When the teardown of the handle in [client] resolves, and
    always when there is no handle, any number of consecutive [/close] calls all
    answer with the closed message, the handle is torn down once, by the
    first call, the state is Absent afterwards and [/status] reports
    [isReady] false; a second close changes nothing.  In particular every
    sequence of closes from the initial state succeeds and leaves it
    unchanged. *)
Theorem close_resets_when_teardown_resolves (world : env) (st : state) :
  (teardown_completes world st ->
   forall n,
     fst (closes world (S n) st) = repeat (Ok closed_response) (S n) /\
     snd (closes world (S n) st) = snd (closes world 1 st) /\
     Absent (snd (closes world (S n) st)) /\
     status_isReady (snd (closes world (S n) st)) = Some (JBool false) /\
     added st (snd (closes world (S n) st))
           (match client st with Some h => [EDestroy h] | None => [] end)) /\
  (forall n, closes world n initial_state = (repeat (Ok closed_response) n, initial_state)).
Proof.
  assert (Hagain : forall n s, client s = None -> reset s = s ->
            closes world n s = (repeat (Ok closed_response) n, s)).
  { induction n as [|n IH]; intros s Hs Hfix; [reflexivity|].
    simpl. unfold app_get_close, bind, ret. rewrite closeWhatsAppSession_eq, Hs, Hfix.
    rewrite (IH s Hs Hfix). reflexivity. }
  split.
  - intros Hc n. unfold teardown_completes in Hc.
    assert (E : exists st1,
               app_get_close world st = (Ok closed_response, st1) /\ client st1 = None /\
               reset st1 = st1 /\ Absent st1 /\
               added st st1 (match client st with Some h => [EDestroy h] | None => [] end)).
    { unfold app_get_close, bind, ret, added, Absent. rewrite closeWhatsAppSession_eq.
      destruct (client st) as [h|] eqn:Hcl.
      - rewrite Hc. eexists. repeat split.
      - exists (reset st). simpl. rewrite Hcl, app_nil_r. repeat split. }
    destruct E as (st1 & E1 & Hnone & Hfix & Habs & Hlog).
    simpl. rewrite E1, (Hagain n st1 Hnone Hfix). simpl.
    repeat split; try apply Habs; try exact Hlog.
    unfold status_isReady. simpl. destruct Habs as (_ & _ & -> & _). reflexivity.
  - intros n. apply Hagain; reflexivity.
Qed.

Lemma close_resets_when_teardown_resolves_witness :
  let st := snd (app_get_initialize logged_in initial_state) in
  fst (closes logged_in 3 st) = repeat (Ok closed_response) 3 /\
  snd (closes logged_in 3 st) = snd (closes logged_in 1 st) /\
  Absent (snd (closes logged_in 3 st)) /\
  status_isReady (snd (closes logged_in 3 st)) = Some (JBool false) /\
  added st (snd (closes logged_in 3 st)) [EDestroy 0].
Proof.
  intros st.
  destruct (close_resets_when_teardown_resolves logged_in st) as (Hok & _).
  apply (Hok eq_refl 2).
Defined.

(** C10.  Called with its default of three retries,
    [initializeWhatsAppClient] returns [true] or throws the error of the
    third attempt, whatever the startup routine does; it never returns
    [false], and [/initialize] never answers with the reply of its [else]
    branch. *)
Theorem initializeWhatsAppClient_never_false (world : env) (st : state) :
  (fst (initializeWhatsAppClient world 3 st) = Ok true \/
   exists e, fst (initializeWhatsAppClient world 3 st) = Throw e /\
             snd (startup world (constructed st + 2)) = Some e) /\
  fst (initializeWhatsAppClient world 3 st) <> Ok false /\
  fst (app_get_initialize world st) <> Ok not_initialized_response.
Proof.
  assert (Hout : forall s, fst (initializeWhatsAppClient world 3 s) = Ok true \/
            exists e, fst (initializeWhatsAppClient world 3 s) = Throw e /\
                      snd (startup world (constructed s + 2)) = Some e).
  { intros s. apply (attempts_outcome world 3 2 s). lia. }
  split; [apply Hout|]. split.
  - destruct (Hout st) as [-> | (e & -> & _)]; discriminate.
  - rewrite app_get_initialize_eq.
    destruct (forced_close world st) as [[[]|e] st0]; [|discriminate].
    destruct (Hout (armed st0)) as [H | (e & H & _)];
      destruct (initializeWhatsAppClient world 3 (armed st0)) as [r st1];
      simpl in H; subst r; discriminate.
Qed.

(** ** Rejection of sends while not ready *)

(** C3.  A send request, text or media, received while the ready flag is
    false never reaches the queue: the queue (pending sequence and jobs in
    flight) is the same afterwards, no job is invoked and the only event
    is the reply.  When the required parameters are present the reply is
    the 503 "not ready" error. *)
Theorem send_rejected_while_not_ready (world : env) (st : state) (q : query) :
  isClientReady st = false ->
  let text := step world (GET_send_message q) st in
  let media := step world (GET_send_message_media q) st in
  (queue text = queue st /\ queue media = queue st) /\
  (length (waiting (queue text)) = length (waiting (queue st)) /\
   length (running (queue text)) = length (running (queue st)) /\
   length (waiting (queue media)) = length (waiting (queue st)) /\
   length (running (queue media)) = length (running (queue st))) /\
  (exists r r', added st text [EResponse (requests st) r] /\
                added st media [EResponse (requests st) r'] /\
                (status r = 400 \/ r = not_ready_response) /\
                (status r' = 400 \/ r' = not_ready_response)) /\
  (Js.truthy (phone q) = true -> Js.truthy (message_param q) = true ->
   added st text [EResponse (requests st) not_ready_response]) /\
  (Js.truthy (phone q) = true -> Js.truthy (message_param q) = true ->
   Js.truthy (fileUrl q) = true ->
   added st media [EResponse (requests st) not_ready_response]) /\
  status not_ready_response = 503.
Proof.
  intros Hready. simpl.
  unfold accept, app_get_send_message, app_get_send_message_media, added. simpl.
  rewrite Hready. simpl.
  destruct (Js.truthy (phone q)), (Js.truthy (message_param q)), (Js.truthy (fileUrl q));
    simpl; repeat split; try discriminate; try reflexivity;
    eexists; eexists; (split; [reflexivity|]); (split; [reflexivity|]);
    split; simpl; auto.
Qed.

Lemma send_rejected_while_not_ready_witness :
  let q := mkQuery (Some "5551234567") (Some "hi") (Some "https://cdn.example/a/pic.png") in
  let st := run awaiting_scan [GET_initialize] initial_state in
  queue (step awaiting_scan (GET_send_message q) st) = queue st /\
  queue (step awaiting_scan (GET_send_message_media q) st) = queue st /\
  added st (step awaiting_scan (GET_send_message q) st) [EResponse 1 not_ready_response] /\
  added st (step awaiting_scan (GET_send_message_media q) st) [EResponse 1 not_ready_response].
Proof.
  intros q st.
  destruct (send_rejected_while_not_ready awaiting_scan st q eq_refl)
    as ((Ht & Hm) & _ & _ & Htext & Hmedia & _).
  split; [exact Ht|]. split; [exact Hm|]. split.
  - apply Htext; reflexivity.
  - apply Hmedia; reflexivity.
Defined.

(** ** The dispatch queue *)

Lemma invoke_frame j st :
  queue (snd (invoke j st)) = queue st /\
  requests (snd (invoke j st)) = requests st /\
  admissions (log (snd (invoke j st))) = admissions (log st) /\
  client (snd (invoke j st)) = client st /\
  isClientReady (snd (invoke j st)) = isClientReady st.
Proof.
  destruct j; unfold invoke, client_sendMessage; [destruct (client st) eqn:E|]; simpl;
    rewrite ?admissions_app; simpl; rewrite ?app_nil_r; repeat split; auto.
Qed.

(** Admission keeps the limit, never exceeds it, and takes the pending
    jobs from the front. *)
Lemma tryToStartAnother_spec pending : forall st,
  concurrency (queue (tryToStartAnother pending st)) = concurrency (queue st) /\
  (length (running (queue st)) <= concurrency (queue st) ->
   length (running (queue (tryToStartAnother pending st))) <= concurrency (queue st)) /\
  order (tryToStartAnother pending st) = admissions (log st) ++ map tid pending /\
  requests (tryToStartAnother pending st) = requests st /\
  client (tryToStartAnother pending st) = client st /\
  isClientReady (tryToStartAnother pending st) = isClientReady st.
Proof.
  unfold order.
  induction pending as [|t pending IH]; intros st; simpl.
  - repeat split; auto.
  - destruct (Nat.ltb_spec (length (running (queue st))) (concurrency (queue st))) as [Hlt|Hge].
    + pose proof (invoke_frame (tjob t) (emit (EStart (tid t)) st)) as (Q & R & A & C & B).
      destruct (invoke (tjob t) (emit (EStart (tid t)) st)) as [[ph|] st2]; simpl in *.
      * rewrite Q, R, A, C, B, admissions_app, length_app. simpl.
        rewrite <- app_assoc. simpl. repeat split; auto. lia.
      * destruct (IH (respond (tid t) (send_error_response (tjob t)) st2))
          as (I1 & I2 & I3 & I4 & I5 & I6).
        simpl in *. rewrite I1, I3, I4, I5, I6, Q, R, C, B.
        rewrite admissions_app, A, admissions_app. simpl.
        rewrite app_nil_r, <- app_assoc. simpl.
        repeat split; auto. intros Hle. rewrite Q in I2. apply I2. exact Hle.
    + simpl. repeat split; auto.
Qed.

Lemma untouched_quiet st st' : queue_untouched st st' -> quiet st st'.
Proof.
  unfold queue_untouched, quiet, bounded, order. intros (Q & R & A).
  rewrite Q, A. auto.
Qed.

Lemma attempts_untouched world retries : forall r st,
  queue_untouched st (snd (attempts world retries r st)).
Proof.
  unfold queue_untouched.
  induction r as [|r IH]; intros st; [simpl; auto|].
  rewrite attempts_S.
  destruct (after_attempt_frame world st) as (H1 & _ & _ & H4 & H5 & _).
  assert (A : admissions (log (after_attempt world st)) = admissions (log st)).
  { rewrite H1, admissions_app. simpl. apply app_nil_r. }
  destruct (snd (startup world (constructed st))) as [e|]; [|simpl; auto].
  destruct (Nat.eqb _ _); [simpl; auto|].
  destruct (IH (emit (ESleep 5000%Z) (after_attempt world st))) as (Q & R & A').
  rewrite Q, R, A'. simpl. rewrite admissions_app, A. simpl. rewrite app_nil_r. auto.
Qed.

Lemma close_untouched world st :
  queue_untouched st (snd (closeWhatsAppSession world st)).
Proof.
  unfold queue_untouched. rewrite closeWhatsAppSession_eq.
  destruct (client st) as [h|]; [destruct (teardown world h)|]; simpl;
    rewrite ?admissions_app; simpl; rewrite ?app_nil_r; auto.
Qed.

Lemma initialize_untouched world st :
  queue_untouched st (snd (app_get_initialize world st)).
Proof.
  rewrite app_get_initialize_eq.
  assert (H0 : queue_untouched st (snd (forced_close world st))).
  { unfold forced_close. destruct (isInitializing st || isClientReady st).
    - apply close_untouched.
    - unfold queue_untouched. auto. }
  destruct (forced_close world st) as [[[]|e] st0]; [|exact H0].
  pose proof (attempts_untouched world 3 3 (armed st0)) as H1.
  unfold initializeWhatsAppClient.
  destruct (attempts world 3 3 (armed st0)) as [[[|]|e] st1];
    unfold queue_untouched in *; simpl in *;
    destruct H0 as (Q0 & R0 & A0); destruct H1 as (Q1 & R1 & A1);
    rewrite Q1, R1, A1; auto.
Qed.

Lemma serve_untouched (handler : M response) id st :
  queue_untouched st (snd (handler st)) -> queue_untouched st (serve handler id st).
Proof.
  unfold queue_untouched, serve.
  destruct (handler st) as [[r|e] st']; simpl; intros (Q & R & A);
    rewrite admissions_app; simpl; rewrite app_nil_r; auto.
Qed.

Lemma settle_quiet t r st : quiet st (settle t r st).
Proof.
  unfold settle, queue_next, quiet, bounded.
  match goal with |- context [tryToStartAnother ?p ?s] =>
    destruct (tryToStartAnother_spec p s) as (C & B & O & R & _) end.
  simpl in *. rewrite C, O, R, admissions_app. simpl. rewrite app_nil_r.
  repeat split; auto.
  intros Hle. apply B.
  eapply Nat.le_trans; [apply filter_length_le | exact Hle].
Qed.

Lemma suspend_after_send_quiet t ph to c st st' :
  client_sendMessage to c st = Some st' -> quiet st (suspend t ph st').
Proof.
  unfold client_sendMessage, suspend, quiet, bounded, order.
  destruct (client st); [|discriminate]. intros [= <-]. simpl.
  rewrite length_map, admissions_app. simpl. rewrite app_nil_r. auto.
Qed.

Lemma quiet_refl st : quiet st st.
Proof. unfold quiet. auto. Qed.

Lemma fetch_settled_quiet id outcome st : quiet st (fetch_settled id outcome st).
Proof.
  unfold fetch_settled.
  destruct (lookup_running id st) as [[t [| |]]|]; try apply quiet_refl.
  destruct (tjob t) as [p m|p m u]; [apply settle_quiet|].
  destruct outcome as [e|resp]; [apply settle_quiet|].
  destruct (client_sendMessage _ _ st) as [st'|] eqn:E; [|apply settle_quiet].
  eapply suspend_after_send_quiet; exact E.
Qed.

Lemma send_settled_quiet id outcome st : quiet st (send_settled id outcome st).
Proof.
  unfold send_settled.
  destruct (lookup_running id st) as [[t [|next|]]|]; try apply quiet_refl.
  - destruct outcome as [e|]; [apply settle_quiet|].
    destruct next as [media|]; [|apply settle_quiet].
    destruct (client_sendMessage _ _ st) as [st'|] eqn:E; [|apply settle_quiet].
    eapply suspend_after_send_quiet; exact E.
  - destruct outcome; apply settle_quiet.
Qed.

(** A submission is either rejected, or appended behind every job
    admitted or pending so far. *)
Lemma accept_send_spec (t : job) (refuse : state -> option response) st :
  let route := fun id s =>
    match refuse s with
    | Some r => respond id r s
    | None => queue_add (mkTask id t) s
    end in
  concurrency (queue (accept route st)) = concurrency (queue st) /\
  (bounded st -> bounded (accept route st)) /\
  requests (accept route st) = S (requests st) /\
  (order (accept route st) = order st \/
   order (accept route st) = order st ++ [requests st]).
Proof.
  unfold accept, bounded, order. simpl.
  destruct (refuse _) as [r|]; simpl.
  - rewrite admissions_app. simpl. rewrite app_nil_r. auto.
  - unfold queue_add.
    match goal with |- context [tryToStartAnother ?p ?s] =>
      destruct (tryToStartAnother_spec p s) as (C & B & O & R & _) end.
    unfold order in O. simpl in *. rewrite C, O, R, map_app, app_assoc. simpl. auto.
Qed.

Lemma step_spec world i st :
  concurrency (queue (step world i st)) = concurrency (queue st) /\
  (bounded st -> bounded (step world i st)) /\
  ((requests (step world i st) = requests st \/
    requests (step world i st) = S (requests st)) /\ order (step world i st) = order st \/
   requests (step world i st) = S (requests st) /\
   order (step world i st) = order st ++ [requests st]).
Proof.
  assert (Hserve : forall handler : M response,
            (forall s, queue_untouched s (snd (handler s))) ->
            concurrency (queue (accept (serve handler) st)) = concurrency (queue st) /\
            (bounded st -> bounded (accept (serve handler) st)) /\
            ((requests (accept (serve handler) st) = requests st \/
              requests (accept (serve handler) st) = S (requests st)) /\
             order (accept (serve handler) st) = order st \/
             requests (accept (serve handler) st) = S (requests st) /\
             order (accept (serve handler) st) = order st ++ [requests st])).
  { intros handler Hh. unfold accept.
    destruct (serve_untouched handler (requests st) _ (Hh (set_requests (S (requests st)) st)))
      as (Q & R & A).
    unfold bounded, order. rewrite Q, R, A. simpl.
    split; [reflexivity|]. split; [auto|]. left. split; [right|]; reflexivity. }
  assert (Hquiet : forall st', quiet st st' ->
            concurrency (queue st') = concurrency (queue st) /\
            (bounded st -> bounded st') /\
            ((requests st' = requests st \/ requests st' = S (requests st)) /\
             order st' = order st \/
             requests st' = S (requests st) /\ order st' = order st ++ [requests st])).
  { intros st' (C & B & O & R). split; [exact C|]. split; [exact B|]. left. auto. }
  destruct i as [| | |q|q|s|id outcome|id outcome]; unfold step.
  - apply Hserve. intros s. apply initialize_untouched.
  - apply Hserve. intros s. unfold app_get_close, bind, ret.
    pose proof (close_untouched world s) as H.
    destruct (closeWhatsAppSession world s) as [[[]|e] s']; exact H.
  - apply Hserve. intros s. unfold queue_untouched. auto.
  - pose proof (accept_send_spec (TextJob (param (phone q)) (param (message_param q)))
      (fun s => if negb (Js.truthy (phone q)) || negb (Js.truthy (message_param q))
                then Some (Json 400 [("error",
                       JString "Se requieren los parámetros phone y message")])
                else if negb (isClientReady s) then Some not_ready_response else None) st)
      as (C & B & R & O).
    unfold accept, app_get_send_message in *. simpl in *.
    destruct (negb (Js.truthy (phone q)) || negb (Js.truthy (message_param q)));
      [|destruct (negb (isClientReady st))]; simpl in *;
      (split; [exact C|]; split; [exact B|]); destruct O as [O|O]; auto.
  - pose proof (accept_send_spec
      (MediaJob (param (phone q)) (param (message_param q)) (param (fileUrl q)))
      (fun s => if negb (Js.truthy (phone q)) || negb (Js.truthy (message_param q))
                   || negb (Js.truthy (fileUrl q))
                then Some (Json 400 [("error",
                       JString "Se requieren los parámetros phone, message y fileUrl")])
                else if negb (isClientReady s) then Some not_ready_response else None) st)
      as (C & B & R & O).
    unfold accept, app_get_send_message_media in *. simpl in *.
    destruct (negb (Js.truthy (phone q)) || negb (Js.truthy (message_param q))
              || negb (Js.truthy (fileUrl q)));
      [|destruct (negb (isClientReady st))]; simpl in *;
      (split; [exact C|]; split; [exact B|]); destruct O as [O|O]; auto.
  - apply Hquiet. apply untouched_quiet.
    destruct (deliver_plumbing s st) as (_ & _ & Q & _ & R & L).
    unfold queue_untouched. rewrite Q, R, L. auto.
  - apply Hquiet, fetch_settled_quiet.
  - apply Hquiet, send_settled_quiet.
Qed.

Lemma ascending_bound l : forall lo hi, ascending lo hi l -> lo <= hi.
Proof.
  induction l as [|x l IH]; simpl; intros lo hi H; [exact H|].
  destruct H as (Hx & Hl). apply IH in Hl. lia.
Qed.

Lemma ascending_weaken l : forall lo hi hi',
  ascending lo hi l -> hi <= hi' -> ascending lo hi' l.
Proof.
  induction l as [|x l IH]; simpl; intros lo hi hi' H Hle; [lia|].
  destruct H as (Hx & Hl). split; [exact Hx | eapply IH; eauto].
Qed.

Lemma ascending_snoc l : forall lo hi,
  ascending lo hi l -> ascending lo (S hi) (l ++ [hi]).
Proof.
  induction l as [|x l IH]; simpl; intros lo hi H; [lia|].
  destruct H as (Hx & Hl). split; [exact Hx | apply IH; exact Hl].
Qed.

Lemma ascending_sorted l : forall lo hi,
  ascending lo hi l -> StronglySorted lt l /\ Forall (fun x => lo <= x < hi) l.
Proof.
  induction l as [|x l IH]; simpl; intros lo hi H; [split; constructor|].
  destruct H as (Hx & Hl). pose proof (ascending_bound _ _ _ Hl) as Hb.
  destruct (IH _ _ Hl) as (Hs & Hf). split.
  - constructor; [exact Hs|]. eapply Forall_impl; [|exact Hf]. simpl. intros a Ha. lia.
  - constructor; [lia|]. eapply Forall_impl; [|exact Hf]. simpl. intros a Ha. lia.
Qed.

Lemma reachable_run world inputs : forall st,
  reachable world st -> reachable world (run world inputs st).
Proof.
  induction inputs as [|i inputs IH]; intros st H; simpl; [exact H|].
  apply IH. constructor. exact H.
Qed.

(** The invariant of the event loop. *)
Lemma reachable_invariant world st :
  reachable world st ->
  concurrency (queue st) = 3 /\ bounded st /\ ascending 0 (requests st) (order st).
Proof.
  induction 1 as [|i st Hreach (C & B & A)].
  - unfold bounded, order. simpl. lia.
  - destruct (step_spec world i st) as (C' & B' & O).
    split; [congruence|]. split; [auto|].
    destruct O as [([R|R] & ->) | (R & ->)]; rewrite R.
    + exact A.
    + eapply ascending_weaken; [exact A | lia].
    + apply ascending_snoc. exact A.
Qed.

Lemma truthy_nonempty s : s <> "" -> Js.truthy (Some s) = true.
Proof. intros H. unfold Js.truthy. apply (proj2 (String.eqb_neq s "")) in H. rewrite H. reflexivity. Qed.

(** Appending a task while the session is ready. *)
Lemma queue_add_blocking t st h :
  client st = Some h ->
  waiting (queue st) = [] \/ concurrency (queue st) <= length (running (queue st)) ->
  let st' := queue_add t st in
  isClientReady st' = isClientReady st /\ client st' = Some h /\
  concurrency (queue st') = concurrency (queue st) /\
  requests st' = requests st /\
  (if Nat.ltb (length (running (queue st))) (concurrency (queue st))
   then running (queue st') = running (queue st) ++ [blocked t] /\ waiting (queue st') = []
   else running (queue st') = running (queue st) /\
        waiting (queue st') = waiting (queue st) ++ [t]).
Proof.
  intros Hclient Hsat. unfold queue_add.
  destruct (Nat.ltb_spec (length (running (queue st))) (concurrency (queue st))) as [Hlt|Hge].
  - destruct Hsat as [Hw|Hfull]; [|lia]. rewrite Hw. simpl.
    apply Nat.ltb_lt in Hlt. rewrite Hlt.
    unfold blocked. destruct t as [id [p m|p m u]]; unfold invoke, client_sendMessage; simpl;
      rewrite ?Hclient; simpl; auto 10.
  - destruct (waiting (queue st) ++ [t]) as [|x xs] eqn:E.
    + destruct (waiting (queue st)); discriminate.
    + simpl. apply Nat.ltb_ge in Hge. rewrite Hge. simpl. auto 10.
Qed.

Lemma submit_blocking world st h j :
  isClientReady st = true -> client st = Some h -> well_formed j ->
  waiting (queue st) = [] \/ concurrency (queue st) <= length (running (queue st)) ->
  step world (submission j) st =
    queue_add (mkTask (requests st) j) (set_requests (S (requests st)) st).
Proof.
  intros Hready Hclient Hwf Hsat.
  destruct j as [p m|p m u]; simpl in *; unfold accept, app_get_send_message,
    app_get_send_message_media; cbn [phone message_param fileUrl isClientReady set_requests].
  - destruct Hwf as (Hp & Hm).
    rewrite (truthy_nonempty p Hp), (truthy_nonempty m Hm), Hready. reflexivity.
  - destruct Hwf as (Hp & Hm & Hu).
    rewrite (truthy_nonempty p Hp), (truthy_nonempty m Hm), (truthy_nonempty u Hu), Hready.
    reflexivity.
Qed.

(** Submitting a batch without any job settling: the free slots are
    filled in submission order and the remaining jobs wait in that
    order. *)
Lemma submit_all world h : forall jobs st,
  isClientReady st = true -> client st = Some h -> Forall well_formed jobs ->
  waiting (queue st) = [] \/ concurrency (queue st) <= length (running (queue st)) ->
  let st' := run world (map submission jobs) st in
  let free := concurrency (queue st) - length (running (queue st)) in
  let tasks := numbered (requests st) jobs in
  running (queue st') = running (queue st) ++ map blocked (firstn free tasks) /\
  waiting (queue st') = waiting (queue st) ++ skipn free tasks /\
  concurrency (queue st') = concurrency (queue st).
Proof.
  induction jobs as [|j jobs IH]; intros st Hready Hclient Hwf Hsat; simpl.
  - rewrite firstn_nil, skipn_nil. simpl. rewrite !app_nil_r. auto.
  - inversion Hwf as [|? ? Hj Hjobs]; subst.
    rewrite (submit_blocking world st h j Hready Hclient Hj Hsat).
    set (st0 := set_requests (S (requests st)) st).
    destruct (queue_add_blocking (mkTask (requests st) j) st0 h Hclient Hsat)
      as (R1 & C1 & K1 & N1 & Hq).
    set (st1 := queue_add (mkTask (requests st) j) st0) in *.
    change (queue st0) with (queue st) in *. change (isClientReady st0) with (isClientReady st) in *.
    change (requests st0) with (S (requests st)) in *.
    destruct (Nat.ltb_spec (length (running (queue st))) (concurrency (queue st))) as [Hlt|Hge].
    + destruct Hq as (Hrun & Hwait).
      destruct (IH st1) as (I1 & I2 & I3); try congruence; [left; exact Hwait|].
      fold (run world (map submission jobs) st1).
      rewrite I1, I2, I3, K1, Hrun, Hwait, N1, length_app. simpl.
      destruct Hsat as [Hw|Hfull]; [|lia]. rewrite Hw.
      replace (concurrency (queue st) - length (running (queue st)))
        with (S (concurrency (queue st) - (length (running (queue st)) + 1))) by lia.
      simpl. rewrite <- app_assoc. auto.
    + destruct Hq as (Hrun & Hwait).
      destruct (IH st1) as (I1 & I2 & I3); try congruence; [right; rewrite K1, Hrun; exact Hge|].
      fold (run world (map submission jobs) st1).
      rewrite I1, I2, I3, K1, Hrun, Hwait, N1.
      replace (concurrency (queue st) - length (running (queue st))) with 0 by lia.
      simpl. rewrite <- app_assoc. auto.
Qed.

Lemma numbered_length js : forall n, length (numbered n js) = length js.
Proof. induction js as [|j js IH]; intros n; simpl; [|rewrite IH]; reflexivity. Qed.

(** C4.  The queue is constructed with concurrency limit 3 and keeps it;
    in every reachable state at most 3 jobs are in flight, and the jobs
    invoked so far followed by the pending ones are in the order of their
    request identifiers, so jobs are admitted in submission order.
    Submitting [3 + k] well-formed jobs to an idle queue while the session
    is ready and holds a handle, with none of them settling, leaves
    exactly the first 3 in flight, each blocked on its first await, and
    the other [k] pending in submission order. *)
Theorem queue_concurrency_and_fifo (world : env) :
  concurrency (queue initial_state) = 3 /\
  (forall st, reachable world st ->
     concurrency (queue st) = 3 /\
     length (running (queue st)) <= 3 /\
     StronglySorted lt (admissions (log st) ++ map tid (waiting (queue st)))) /\
  (forall st h jobs k,
     isClientReady st = true -> client st = Some h ->
     queue st = mkPQueue 3 [] [] ->
     Forall well_formed jobs -> length jobs = 3 + k ->
     let st' := run world (map submission jobs) st in
     let tasks := numbered (requests st) jobs in
     running (queue st') = map blocked (firstn 3 tasks) /\
     waiting (queue st') = skipn 3 tasks /\
     length (running (queue st')) = 3 /\
     length (waiting (queue st')) = k /\
     concurrency (queue st') = 3).
Proof.
  split; [reflexivity|]. split.
  - intros st Hreach.
    destruct (reachable_invariant world st Hreach) as (C & B & A).
    unfold bounded in B. rewrite C in B.
    split; [exact C|]. split; [exact B|].
    apply (ascending_sorted _ _ _ A).
  - intros st h jobs k Hready Hclient Hq Hwf Hlen st' tasks.
    destruct (submit_all world h jobs st Hready Hclient Hwf) as (R & W & C).
    { left. rewrite Hq. reflexivity. }
    fold st' in R, W, C. rewrite Hq in R, W, C.
    cbn [concurrency running waiting length Nat.sub app] in R, W, C. fold tasks in R, W.
    assert (Htasks : length tasks = 3 + k).
    { unfold tasks. rewrite numbered_length. exact Hlen. }
    rewrite R, W, C. repeat split.
    + rewrite length_map, length_firstn. lia.
    + rewrite length_skipn. lia.
Qed.

Lemma queue_concurrency_and_fifo_witness :
  let st := run logged_in [GET_initialize] initial_state in
  let jobs := [TextJob "5551234567" "one"; MediaJob "5551234567" "two" "https://cdn.example/pic.png";
               TextJob "5551234567" "three"; TextJob "5551234567" "four"] in
  let st' := run logged_in (map submission jobs) st in
  (concurrency (queue st') = 3 /\ length (running (queue st')) <= 3 /\
   StronglySorted lt (admissions (log st') ++ map tid (waiting (queue st')))) /\
  (running (queue st') = map blocked (firstn 3 (numbered 1 jobs)) /\
   waiting (queue st') = skipn 3 (numbered 1 jobs) /\
   length (running (queue st')) = 3 /\ length (waiting (queue st')) = 1 /\
   concurrency (queue st') = 3).
Proof.
  intros st jobs st'.
  destruct (queue_concurrency_and_fifo logged_in) as (_ & Hinv & Hbatch).
  split.
  - apply Hinv. unfold st', st. do 2 apply reachable_run. apply reachable_initial.
  - apply (Hbatch st 0 jobs 1); try reflexivity.
    unfold jobs. repeat constructor; discriminate.
Defined.

(** ** Jobs in flight *)

Lemma is_task_fresh id (l : list (task * phase)) :
  Forall (fun tp => tid (fst tp) <> id) l ->
  Forall (fun tp => is_task id tp = false) l.
Proof.
  intros H. eapply Forall_impl; [|exact H]. simpl. intros tp Hne.
  unfold is_task. apply Nat.eqb_neq. exact Hne.
Qed.

Lemma running_find id before x after :
  Forall (fun tp => tid (fst tp) <> id) before -> tid (fst x) = id ->
  find (is_task id) (before ++ x :: after) = Some x.
Proof.
  intros Hb Hx. apply is_task_fresh in Hb.
  induction Hb as [|y before Hy Hb IH]; simpl.
  - unfold is_task. rewrite Hx, Nat.eqb_refl. reflexivity.
  - rewrite Hy. exact IH.
Qed.

Lemma filter_fresh id l :
  Forall (fun tp => tid (fst tp) <> id) l ->
  filter (fun tp => negb (is_task id tp)) l = l.
Proof.
  intros H. apply is_task_fresh in H.
  induction H as [|y l Hy Hl IH]; simpl; [reflexivity|]. rewrite Hy, IH. reflexivity.
Qed.

Lemma running_filter id before x after :
  Forall (fun tp => tid (fst tp) <> id) before ->
  Forall (fun tp => tid (fst tp) <> id) after -> tid (fst x) = id ->
  filter (fun tp => negb (is_task id tp)) (before ++ x :: after) = before ++ after.
Proof.
  intros Hb Ha Hx. rewrite filter_app. simpl.
  rewrite (filter_fresh id before Hb), (filter_fresh id after Ha).
  unfold is_task. rewrite Hx, Nat.eqb_refl. reflexivity.
Qed.

Lemma running_map id y before x after :
  Forall (fun tp => tid (fst tp) <> id) before ->
  Forall (fun tp => tid (fst tp) <> id) after -> tid (fst x) = id ->
  map (fun tp => if is_task id tp then y else tp) (before ++ x :: after) = before ++ y :: after.
Proof.
  intros Hb Ha Hx.
  assert (Hid : forall l, Forall (fun tp => tid (fst tp) <> id) l ->
                  map (fun tp => if is_task id tp then y else tp) l = l).
  { intros l H. apply is_task_fresh in H.
    induction H as [|z l Hz Hl IH]; simpl; [reflexivity|]. rewrite Hz, IH. reflexivity. }
  rewrite map_app. simpl. rewrite (Hid before Hb), (Hid after Ha).
  unfold is_task. rewrite Hx, Nat.eqb_refl. reflexivity.
Qed.

Lemma in_flight_lookup st t ph before after :
  in_flight st t ph before after -> lookup_running (tid t) st = Some (t, ph).
Proof.
  intros (Hq & Hb & Ha). unfold lookup_running. rewrite Hq.
  apply running_find; [exact Hb | reflexivity].
Qed.

(** A job in flight settles while nothing is pending. *)
Lemma settle_idle st t ph before after r :
  in_flight st t ph before after -> waiting (queue st) = [] ->
  running (queue (settle t r st)) = before ++ after /\
  waiting (queue (settle t r st)) = [] /\
  concurrency (queue (settle t r st)) = concurrency (queue st) /\
  added st (settle t r st) [EResponse (tid t) r] /\
  client (settle t r st) = client st /\
  isClientReady (settle t r st) = isClientReady st.
Proof.
  intros (Hq & Hb & Ha) Hw. unfold settle, queue_next, added. simpl.
  rewrite Hw, Hq. simpl.
  rewrite (running_filter (tid t) before (t, ph) after Hb Ha eq_refl). auto 10.
Qed.

(** A job in flight moves on to a further [client.sendMessage]. *)
Lemma suspend_on_send st t ph ph' before after h to c :
  in_flight st t ph before after -> client st = Some h ->
  exists st', client_sendMessage to c st = Some st' /\
    in_flight (suspend t ph' st') t ph' before after /\
    waiting (queue (suspend t ph' st')) = waiting (queue st) /\
    concurrency (queue (suspend t ph' st')) = concurrency (queue st) /\
    added st (suspend t ph' st') [ESendMessage h to c] /\
    client (suspend t ph' st') = Some h /\
    isClientReady (suspend t ph' st') = isClientReady st.
Proof.
  intros (Hq & Hb & Ha) Hclient. unfold client_sendMessage. rewrite Hclient.
  eexists. split; [reflexivity|]. unfold in_flight, suspend, added. simpl.
  rewrite Hq, (running_map (tid t) (t, ph') before (t, ph) after Hb Ha eq_refl).
  auto 10.
Qed.

(** Admission of the only pending job into a free slot. *)
Lemma admit_blocking t st h :
  client st = Some h ->
  length (running (queue st)) < concurrency (queue st) ->
  let st' := tryToStartAnother [t] st in
  running (queue st') = running (queue st) ++ [blocked t] /\
  waiting (queue st') = [] /\
  concurrency (queue st') = concurrency (queue st) /\
  added st st' [EStart (tid t); first_call h (tjob t)] /\
  client st' = Some h /\ isClientReady st' = isClientReady st /\
  requests st' = requests st.
Proof.
  intros Hclient Hlt. apply Nat.ltb_lt in Hlt. simpl. rewrite Hlt.
  unfold blocked, added.
  destruct t as [id [p m|p m u]]; unfold invoke, client_sendMessage; simpl;
    rewrite ?Hclient; simpl; rewrite <- ?app_assoc; auto 10.
Qed.


(** ** The send jobs *)

(** C8.  A media job admitted into a free slot first fetches the file and
    nothing else.  If the fetch rejects, the request is answered with
    status 500 and the body [{ error: 'Error al enviar el mensaje
    multimedia' }], and no message was sent.  If it resolves, the job sends
    the text to the phone followed by "@c.us" and, once that send has
    resolved, the media payload to the same chat.  The content type of the
    payload is the value of the first [content-type] header of the
    response; its body is the base64 encoding of the fetched octets: it
    has four characters for every group of up to three octets, the
    reference decoder reads the octets back from it, and it is the only
    string read so; its file name is the
    last segment of the URL split at "/".  After the second send the
    request is answered with status 200 and the success body.  If either
    send rejects, the answer is the same 500 as for a failed fetch, and
    after a rejected first send the media payload is not sent.  The octets
    1, 2 encode to "AQI=", the octets of "Man" to "TWFu", the octet 255 to
    "/w==". *)
Theorem media_job_fetches_then_sends_twice
    (world : env) (st : state) (h : handle) (p m u : string) :
  isClientReady st = true -> client st = Some h ->
  waiting (queue st) = [] ->
  length (running (queue st)) < concurrency (queue st) ->
  fresh_id (requests st) st ->
  well_formed (MediaJob p m u) ->
  let id := requests st in
  let to := String.append p "@c.us" in
  let failure := Json 500 [("error", JString "Error al enviar el mensaje multimedia")] in
  let success :=
    Json 200 [("success", JBool true);
              ("message", JString "Mensaje y archivo multimedia enviados con éxito")] in
  let st1 := step world (GET_send_message_media (mkQuery (Some p) (Some m) (Some u))) st in
  added st st1 [EStart id; EFetch u] /\
  (forall e,
     let st2 := step world (FetchSettled id (inl e)) st1 in
     added st1 st2 [EResponse id failure] /\
     running (queue st2) = running (queue st)) /\
  (forall resp,
     let media := mkMessageMedia (Js.prop "content-type" (headers resp))
                                 (Base64.encode (response_data resp))
                                 (Js.pop (Js.split "/" u)) in
     let st2 := step world (FetchSettled id (inr resp)) st1 in
     let st3 := step world (SendSettled id None) st2 in
     let st4 := step world (SendSettled id None) st3 in
     added st1 st2 [ESendMessage h to (Text m)] /\
     added st2 st3 [ESendMessage h to (Media media)] /\
     added st3 st4 [EResponse id success] /\
     running (queue st4) = running (queue st) /\
     (forall e, added st2 (step world (SendSettled id (Some e)) st2)
                      [EResponse id failure]) /\
     (forall e, added st3 (step world (SendSettled id (Some e)) st3)
                      [EResponse id failure]) /\
     mimetype media =
       option_map snd (find (fun kv => String.eqb (fst kv) "content-type") (headers resp)) /\
     Base64.decode (data media) =
       Some (map (fun b => Z.land b 255) (response_data resp)) /\
     (Forall (fun b => (0 <= b < 256)%Z) (response_data resp) ->
      Base64.decode (data media) = Some (response_data resp)) /\
     (forall s, Base64.decode s = Some (map (fun b => Z.land b 255) (response_data resp)) ->
                s = data media) /\
     String.length (data media) = 4 * ((length (response_data resp) + 2) / 3)) /\
  (exists seg, Js.pop (Js.split "/" u) = Some seg /\ no_slash seg /\
     (u = seg \/ exists pre, u = String.append pre (String "/" seg))) /\
  media_of "https://cdn.example/a/pic.png" png_response =
    mkMessageMedia (Some "image/png") "AQI=" (Some "pic.png") /\
  Base64.encode [77; 97; 110]%Z = "TWFu" /\
  Base64.encode [255]%Z = "/w==" /\
  Base64.encode [] = "".
Proof.
  intros Hready Hclient Hw Hslot Hfresh Hwf id to failure success st1.
  set (t := mkTask id (MediaJob p m u)).
  assert (E1 : st1 = tryToStartAnother [t] (set_requests (S id) st)).
  { pose proof (submit_blocking world st h (MediaJob p m u) Hready Hclient Hwf (or_introl Hw))
      as Hs.
    unfold submission in Hs. unfold st1. rewrite Hs.
    unfold queue_add. simpl. rewrite Hw. reflexivity. }
  destruct (admit_blocking t (set_requests (S id) st) h Hclient Hslot)
    as (R1 & W1 & C1 & L1 & K1 & B1 & _).
  rewrite <- E1 in R1, W1, C1, L1, K1, B1. simpl in R1, C1, L1.
  assert (F1 : in_flight st1 t Fetching (running (queue st)) []).
  { split; [exact R1|]. split; [exact Hfresh | constructor]. }
  split; [exact L1|].
  split; [|split; [|split; [apply pop_split_spec | repeat split; reflexivity]]].
  - intros e st2.
    assert (Look1 : lookup_running id st1 = Some (t, Fetching))
      by exact (in_flight_lookup _ _ _ _ _ F1).
    unfold st2, step, fetch_settled. rewrite Look1. simpl.
    destruct (settle_idle st1 t Fetching _ _ (send_error_response (MediaJob p m u)) F1 W1)
      as (R2 & _ & _ & L2 & _).
    rewrite app_nil_r in R2. split; [exact L2 | exact R2].
  - intros resp media st2 st3 st4.
    assert (Look1 : lookup_running id st1 = Some (t, Fetching))
      by exact (in_flight_lookup _ _ _ _ _ F1).
    destruct (suspend_on_send st1 t Fetching (SendingText (Some media)) _ _ h
                (chatId p) (Text m) F1 K1) as (s2 & S2 & F2 & W2 & _ & L2 & K2 & _).
    assert (E2 : st2 = suspend t (SendingText (Some media)) s2).
    { unfold st2, step, fetch_settled. rewrite Look1. simpl.
      fold media. rewrite S2. reflexivity. }
    rewrite <- E2 in F2, W2, L2, K2. rewrite W1 in W2.
    assert (Look2 : lookup_running id st2 = Some (t, SendingText (Some media)))
      by exact (in_flight_lookup _ _ _ _ _ F2).
    destruct (suspend_on_send st2 t _ SendingMedia _ _ h
                (chatId p) (Media media) F2 K2) as (s3 & S3 & F3 & W3 & _ & L3 & K3 & _).
    assert (E3 : st3 = suspend t SendingMedia s3).
    { unfold st3, step, send_settled. rewrite Look2. simpl.
      rewrite S3. reflexivity. }
    rewrite <- E3 in F3, W3, L3, K3. rewrite W2 in W3.
    assert (Look3 : lookup_running id st3 = Some (t, SendingMedia))
      by exact (in_flight_lookup _ _ _ _ _ F3).
    destruct (settle_idle st3 t SendingMedia _ _ (sent_response (MediaJob p m u)) F3 W3)
      as (R4 & _ & _ & L4 & _).
    assert (E4 : st4 = settle t (sent_response (MediaJob p m u)) st3).
    { unfold st4, step, send_settled. rewrite Look3. reflexivity. }
    rewrite <- E4 in R4, L4. rewrite app_nil_r in R4.
    split; [exact L2|]. split; [exact L3|]. split; [exact L4|]. split; [exact R4|].
    split; [|split; [|split; [|split; [|split; [|split]]]]].
    + intros e. unfold step, send_settled. rewrite Look2. simpl.
      destruct (settle_idle st2 t _ _ _ (send_error_response (MediaJob p m u)) F2 W2)
        as (_ & _ & _ & L5 & _).
      exact L5.
    + intros e. unfold step, send_settled. rewrite Look3. simpl.
      destruct (settle_idle st3 t _ _ _ (send_error_response (MediaJob p m u)) F3 W3)
        as (_ & _ & _ & L5 & _).
      exact L5.
    + apply prop_first_binding.
    + apply decode_encode.
    + apply decode_encode_octets.
    + intros s. apply encode_unique.
    + apply encode_length.
Qed.

Lemma media_job_fetches_then_sends_twice_witness :
  let st := run logged_in [GET_initialize] initial_state in
  let u := "https://cdn.example/a/pic.png" in
  let q := mkQuery (Some "5551234567") (Some "hi") (Some u) in
  let st1 := step logged_in (GET_send_message_media q) st in
  let st2 := step logged_in (FetchSettled 1 (inr png_response)) st1 in
  let st3 := step logged_in (SendSettled 1 None) st2 in
  let st4 := step logged_in (SendSettled 1 None) st3 in
  added st st1 [EStart 1; EFetch u] /\
  added st1 st2 [ESendMessage 0 "5551234567@c.us" (Text "hi")] /\
  added st2 st3 [ESendMessage 0 "5551234567@c.us"
                   (Media (mkMessageMedia (Some "image/png") "AQI=" (Some "pic.png")))] /\
  added st3 st4 [EResponse 1 (Json 200 [("success", JBool true);
                   ("message", JString "Mensaje y archivo multimedia enviados con éxito")])] /\
  (forall e, added st1 (step logged_in (FetchSettled 1 (inl e)) st1)
               [EResponse 1 (Json 500
                  [("error", JString "Error al enviar el mensaje multimedia")])]) /\
  Base64.decode "AQI=" = Some [1; 2]%Z.
Proof.
  intros st u q st1 st2 st3 st4.
  assert (Hwf : well_formed (MediaJob "5551234567" "hi" u)).
  { repeat split; discriminate. }
  assert (Hslot : length (running (queue st)) < concurrency (queue st)).
  { simpl. lia. }
  destruct (media_job_fetches_then_sends_twice logged_in st 0 "5551234567" "hi" u
              eq_refl eq_refl eq_refl Hslot (Forall_nil _) Hwf) as (H1 & H0 & H3 & _).
  destruct (H3 png_response) as (H2 & H4 & H5 & _ & _ & _ & _ & H6 & _).
  split; [exact H1|]. split; [exact H2|]. split; [exact H4|]. split; [exact H5|].
  split; [|exact H6].
  intros e. exact (proj1 (H0 e)).
Defined.





(** ** Further properties of the retry loop *)

Lemma constructions_app xs ys : constructions (xs ++ ys) = constructions xs + constructions ys.
Proof.
  induction xs as [|x xs IH]; simpl; [reflexivity|].
  destruct x; simpl; rewrite IH; reflexivity.
Qed.

Lemma teardowns_app xs ys : teardowns (xs ++ ys) = teardowns xs + teardowns ys.
Proof.
  induction xs as [|x xs IH]; simpl; [reflexivity|].
  destruct x; simpl; rewrite IH; reflexivity.
Qed.

Lemma constructions_failed_attempts h k : constructions (failed_attempts h k) = k.
Proof. revert h. induction k as [|k IH]; intros h; simpl; [|rewrite IH]; reflexivity. Qed.

Lemma teardowns_failed_attempts h k : teardowns (failed_attempts h k) = 0.
Proof. revert h. induction k as [|k IH]; intros h; simpl; [|rewrite IH]; reflexivity. Qed.

(** Among the next [n] handles either every startup rejects, or there is
    a first one that resolves. *)
Lemma first_resolution world c n :
  (forall j, j < n -> fails world (c + j)) \/
  (exists k, k < n /\ (forall j, j < k -> fails world (c + j)) /\ succeeds world (c + k)).
Proof.
  induction n as [|n [Hall | (k & Hk & Hfail & Hok)]].
  - left. intros j Hj. lia.
  - destruct (snd (startup world (c + n))) as [e|] eqn:E.
    + left. intros j Hj. destruct (Nat.eq_dec j n) as [->|Hne].
      * unfold fails. rewrite E. discriminate.
      * apply Hall. lia.
    + right. exists n. split; [lia|]. split; [exact Hall | exact E].
  - right. exists k. split; [lia|]. split; assumption.
Qed.

(** What a call with at least one retry does: [k] failed attempts, then
    one more attempt that resolves, or that is the last one allowed. *)
Lemma initializeWhatsAppClient_cases world retries st :
  0 < retries ->
  exists k st',
    k < retries /\
    snd (initializeWhatsAppClient world retries st) = st' /\
    added st st' (failed_attempts (constructed st) k ++ attempt (constructed st + k)) /\
    client st' = Some (constructed st + k) /\
    constructed st' = S (constructed st + k) /\
    queue st' = queue st /\ requests st' = requests st /\
    isInitializing st' = isInitializing st /\
    (forall j, j < k -> fails world (constructed st + j)) /\
    (succeeds world (constructed st + k) /\
     fst (initializeWhatsAppClient world retries st) = Ok true \/
     S k = retries /\
     exists e, snd (startup world (constructed st + k)) = Some e /\
               fst (initializeWhatsAppClient world retries st) = Throw e).
Proof.
  intros Hpos. unfold initializeWhatsAppClient.
  destruct (first_resolution world (constructed st) retries)
    as [Hall | (k & Hk & Hfail & Hok)].
  - destruct retries as [|r]; [lia|].
    destruct (attempts_exhaust world (S r) r st) as (e & st' & E & He & L & C & N & Q & R & I);
      [lia | intros j Hj; apply Hall; lia |].
    exists r, st'. rewrite E. simpl.
    split; [lia|]. repeat (split; [assumption || reflexivity|]).
    split; [intros j Hj; apply Hall; lia|].
    right. split; [reflexivity|]. exists e. split; [exact He | reflexivity].
  - destruct (attempts_resolve world retries k retries st Hk (le_n _) Hfail Hok)
      as (st' & E & L & C & N & Q & R & I).
    exists k, st'. rewrite E. simpl.
    split; [exact Hk|]. repeat (split; [assumption || reflexivity|]).
    left. split; [exact Hok | reflexivity].
Qed.

(** X1.  For every number of retries and every behaviour of the startup
    routine, [initializeWhatsAppClient] invokes the startup routine at most
    [retries] times, and at least once unless [retries] is zero; it
    constructs as many clients as it makes attempts, waits 5000 ms once
    less often than it makes attempts, and never tears a client down. *)
Theorem retry_loop_trace (world : env) (retries : nat) (st : state) :
  exists evs,
    added st (snd (initializeWhatsAppClient world retries st)) evs /\
    invocations evs <= retries /\
    (0 < retries -> 1 <= invocations evs) /\
    constructions evs = invocations evs /\
    teardowns evs = 0 /\
    delays evs = repeat 5000%Z (invocations evs - 1).
Proof.
  destruct retries as [|r].
  - exists []. unfold added. simpl. rewrite app_nil_r. repeat split; auto; lia.
  - destruct (initializeWhatsAppClient_cases world (S r) st) as (k & st' & Hk & E & L & _);
      [lia|].
    rewrite E. eexists. split; [exact L|].
    rewrite invocations_retry_trace, delays_retry_trace.
    rewrite constructions_app, teardowns_app, constructions_failed_attempts,
      teardowns_failed_attempts. simpl.
    replace (k + 1 - 1) with k by lia.
    repeat split; lia.
Qed.

(** X2.  [initializeWhatsAppClient] returns [false] exactly when it is
    called with zero retries; it returns [true] exactly when the startup
    resolves on one of the next [retries] clients; and when it throws, all
    [retries] startups rejected and the error is the one of the last. *)
Theorem retry_loop_outcome (world : env) (retries : nat) (st : state) :
  (fst (initializeWhatsAppClient world retries st) = Ok false <-> retries = 0) /\
  (fst (initializeWhatsAppClient world retries st) = Ok true <->
   exists k, k < retries /\ succeeds world (constructed st + k)) /\
  (forall e, fst (initializeWhatsAppClient world retries st) = Throw e ->
     0 < retries /\
     (forall j, j < retries -> fails world (constructed st + j)) /\
     snd (startup world (constructed st + (retries - 1))) = Some e).
Proof.
  destruct retries as [|r].
  - change (initializeWhatsAppClient world 0 st) with (@Ok bool false, st). simpl.
    split; [split; auto|]. split.
    + split; [discriminate | intros (k & Hk & _); lia].
    + discriminate.
  - destruct (initializeWhatsAppClient_cases world (S r) st)
      as (k & st' & Hk & _ & _ & _ & _ & _ & _ & _ & Hfail & Hout); [lia|].
    assert (Hlast : forall e, S k = S r ->
              snd (startup world (constructed st + k)) = Some e ->
              forall j, j < S r -> fails world (constructed st + j)).
    { intros e Hkr He j Hj. destruct (Nat.eq_dec j k) as [->|Hne].
      - unfold fails. rewrite He. discriminate.
      - apply Hfail. lia. }
    destruct Hout as [(Hok & ->) | (Hkr & e & He & ->)].
    + split; [split; [discriminate | lia]|]. split.
      * split; [intros _; exists k; auto | reflexivity].
      * discriminate.
    + split; [split; [discriminate | lia]|]. split.
      * split; [discriminate|].
        intros (k' & Hk' & Hok'). pose proof (Hlast e Hkr He k' Hk') as Hf.
        unfold fails, succeeds in *. congruence.
      * intros e' [= <-]. split; [lia|]. split; [exact (Hlast e Hkr He)|].
        replace (S r - 1) with k by lia. exact He.
Qed.

(** ** Further properties of [/initialize] and [/close] *)

(** The forced close either rejects with the teardown error of the old
    handle, or completes having torn down at most that handle. *)
Lemma forced_close_cases world st :
  (exists h e,
     isInitializing st || isClientReady st = true /\ client st = Some h /\
     teardown world h = Some e /\
     forced_close world st = (Throw e, emit (EDestroy h) st)) \/
  (exists st0 pre,
     forced_close world st = (Ok tt, st0) /\ added st st0 pre /\
     constructions pre = 0 /\ invocations pre = 0 /\ delays pre = [] /\
     teardowns pre <= 1 /\
     (isInitializing st || isClientReady st = false -> pre = []) /\
     constructed st0 = constructed st /\ queue st0 = queue st /\
     requests st0 = requests st /\
     isClientReady st0 = false /\
     (pre = [] \/ exists h, client st = Some h /\ pre = [EDestroy h])).
Proof.
  unfold forced_close, added.
  destruct (isInitializing st || isClientReady st) eqn:G.
  - rewrite closeWhatsAppSession_eq.
    destruct (client st) as [h|] eqn:C.
    + destruct (teardown world h) as [e|] eqn:T.
      * left. exists h, e. auto.
      * right. eexists _, [EDestroy h]. simpl. repeat split; eauto. discriminate.
    + right. eexists _, []. simpl. rewrite app_nil_r. repeat split; auto.
  - right. exists st, []. rewrite app_nil_r. simpl.
    apply orb_false_elim in G. destruct G as (_ & G). repeat split; auto.
Qed.

(** X3.  A call of [/initialize] either rejects with the error of the
    teardown of the old handle, before any variable is written, or it
    replies.  When it replies the initializing marker is false, the queue
    is as before and [client] holds the handle of the last attempt made.
    The reply is the success message, carrying the challenge payload held
    at that moment, exactly when that attempt's startup resolved; otherwise
    three attempts rejected and the reply is the 500 error with the details
    of the third. *)
Theorem initialize_reply_characterization (world : env) (st : state) :
  (exists h e,
     isInitializing st || isClientReady st = true /\ client st = Some h /\
     teardown world h = Some e /\
     app_get_initialize world st = (Throw e, emit (EDestroy h) st)) \/
  (exists k st' r,
     k < 3 /\ app_get_initialize world st = (Ok r, st') /\
     isInitializing st' = false /\
     client st' = Some (constructed st + k) /\
     queue st' = queue st /\
     (forall j, j < k -> fails world (constructed st + j)) /\
     (succeeds world (constructed st + k) /\
      r = initialized_response (qrCodeData st') /\ status r = 200 \/
      k = 2 /\ fails world (constructed st + 2) /\
      exists e, snd (startup world (constructed st + 2)) = Some e /\
                r = initialize_error_response e /\ status r = 500)).
Proof.
  rewrite app_get_initialize_eq.
  destruct (forced_close_cases world st)
    as [(h & e & G & C & T & E) | (st0 & pre & E & _ & _ & _ & _ & _ & _ & N0 & Q0 & _)].
  - left. exists h, e. rewrite E. auto.
  - right. rewrite E.
    destruct (initializeWhatsAppClient_cases world 3 (armed st0))
      as (k & st1 & Hk & E1 & _ & C1 & _ & Q1 & _ & _ & Hfail & Hout); [lia|].
    simpl in C1, Q1, Hfail, Hout. rewrite N0 in *. rewrite Q0 in Q1.
    destruct (initializeWhatsAppClient world 3 (armed st0)) as [res st1'].
    simpl in E1. subst st1'.
    destruct Hout as [(Hok & Hres) | (Hlast & e & He & Hres)]; simpl in Hres; subst res.
    + exists k, (set_isInitializing false st1), (initialized_response (qrCodeData st1)).
      repeat split; auto.
    + exists k, (set_isInitializing false st1), (initialize_error_response e).
      assert (k = 2) by lia. subst k.
      repeat split; auto. right.
      repeat split; auto.
      * unfold fails. rewrite He. discriminate.
      * exists e. auto.
Qed.

(** X4.  When neither the initializing marker nor the ready flag is set,
    [/initialize] performs no teardown, whatever [client] holds: the first
    thing it does is construct a new client, the call always replies, and
    [client] is overwritten with the handle of the last attempt. *)
Theorem initialize_without_flags_skips_teardown (world : env) (st : state) :
  isInitializing st = false -> isClientReady st = false ->
  exists k st' r evs,
    k < 3 /\ app_get_initialize world st = (Ok r, st') /\
    added st st' (ENewClient (constructed st) :: evs) /\
    teardowns (ENewClient (constructed st) :: evs) = 0 /\
    client st' = Some (constructed st + k).
Proof.
  intros Hi Hr. rewrite app_get_initialize_eq. unfold forced_close. rewrite Hi, Hr. simpl.
  destruct (initializeWhatsAppClient_cases world 3 (armed st))
    as (k & st1 & Hk & E1 & L1 & C1 & _); [lia|].
  simpl in L1, C1. unfold added in *.
  assert (Hshape : exists evs,
            failed_attempts (constructed st) k ++ attempt (constructed st + k) =
              ENewClient (constructed st) :: evs /\
            teardowns (ENewClient (constructed st) :: evs) = 0).
  { destruct k as [|k].
    - rewrite Nat.add_0_r. simpl. eexists. split; reflexivity.
    - simpl. eexists. split; [reflexivity|]. simpl.
      rewrite teardowns_app, teardowns_failed_attempts. reflexivity. }
  destruct Hshape as (evs & Heq & Ht). rewrite Heq in L1.
  destruct (initializeWhatsAppClient world 3 (armed st)) as [[[|]|e] st1'];
    simpl in E1; subst st1'; eexists k, _, _, evs;
    (split; [exact Hk|]); (split; [reflexivity|]); simpl; auto.
Qed.

Lemma initialize_without_flags_skips_teardown_witness :
  let st := run awaiting_scan [GET_initialize] initial_state in
  client st = Some 0 /\
  exists k st' r evs,
    k < 3 /\ app_get_initialize awaiting_scan st = (Ok r, st') /\
    added st st' (ENewClient 1 :: evs) /\
    teardowns (ENewClient 1 :: evs) = 0 /\
    client st' = Some (1 + k).
Proof.
  split; [reflexivity|].
  apply (initialize_without_flags_skips_teardown awaiting_scan
           (run awaiting_scan [GET_initialize] initial_state)); reflexivity.
Defined.

(** X5.  Starting without a handle, [/initialize] followed by [/close]
    constructs one client per attempt but tears down only the last one:
    the client of every failed attempt is neither destroyed nor reachable
    afterwards. *)
Theorem failed_attempts_leak_clients (world : env) (st : state) :
  client st = None ->
  (forall h, teardown world h = None) ->
  let st1 := snd (app_get_initialize world st) in
  let st2 := snd (app_get_close world st1) in
  exists k evs,
    k < 3 /\ (forall j, j < k -> fails world (constructed st + j)) /\
    added st st2 evs /\
    constructions evs = k + 1 /\ teardowns evs = 1 /\
    In (EDestroy (constructed st + k)) evs /\
    client st2 = None.
Proof.
  intros Hnone Hdown st1 st2.
  assert (E0 : forced_close world st = (Ok tt, reset st) \/ forced_close world st = (Ok tt, st)).
  { unfold forced_close. destruct (isInitializing st || isClientReady st); [|auto].
    rewrite closeWhatsAppSession_eq, Hnone. auto. }
  assert (H1 : exists k, k < 3 /\ (forall j, j < k -> fails world (constructed st + j)) /\
                added st st1 (failed_attempts (constructed st) k ++ attempt (constructed st + k)) /\
                client st1 = Some (constructed st + k)).
  { unfold st1. rewrite app_get_initialize_eq.
    destruct E0 as [-> | ->].
    - destruct (initializeWhatsAppClient_cases world 3 (armed (reset st)))
        as (k & s & Hk & E1 & L1 & C1 & _ & _ & _ & _ & Hfail & _); [lia|].
      exists k. destruct (initializeWhatsAppClient world 3 (armed (reset st))) as [[[|]|e] s'];
        simpl in E1; subst s'; simpl; auto.
    - destruct (initializeWhatsAppClient_cases world 3 (armed st))
        as (k & s & Hk & E1 & L1 & C1 & _ & _ & _ & _ & Hfail & _); [lia|].
      exists k. destruct (initializeWhatsAppClient world 3 (armed st)) as [[[|]|e] s'];
        simpl in E1; subst s'; simpl; auto. }
  destruct H1 as (k & Hk & Hfail & L1 & C1).
  exists k, ((failed_attempts (constructed st) k ++ attempt (constructed st + k))
             ++ [EDestroy (constructed st + k)]).
  split; [exact Hk|]. split; [exact Hfail|].
  unfold st2, app_get_close, bind, ret. rewrite closeWhatsAppSession_eq, C1, (Hdown _).
  unfold added in *. cbn [fst snd log client reset set_client set_qrCodeData
    set_isInitializing set_isClientReady emit].
  split; [rewrite L1, <- !app_assoc; reflexivity|].
  rewrite !constructions_app, !teardowns_app, constructions_failed_attempts,
    teardowns_failed_attempts. simpl.
  split; [lia|]. split; [reflexivity|]. split; [|reflexivity].
  apply in_or_app. right. left. reflexivity.
Qed.

Lemma failed_attempts_leak_clients_witness :
  let st2 := snd (app_get_close (resolves_after 2)
                    (snd (app_get_initialize (resolves_after 2) initial_state))) in
  exists k evs,
    k < 3 /\ (forall j, j < k -> fails (resolves_after 2) (constructed initial_state + j)) /\
    added initial_state st2 evs /\
    constructions evs = k + 1 /\ teardowns evs = 1 /\
    In (EDestroy (constructed initial_state + k)) evs /\
    client st2 = None.
Proof.
  apply (failed_attempts_leak_clients (resolves_after 2) initial_state);
    [reflexivity | intros h; reflexivity].
Defined.

(** ** Separation of the session lifecycle and the dispatch queue *)

Lemma dispatch_only_refl st : dispatch_only st st.
Proof.
  split; [repeat split|]. exists []. unfold added. rewrite app_nil_r. auto.
Qed.

Lemma dispatch_only_trans st1 st2 st3 :
  dispatch_only st1 st2 -> dispatch_only st2 st3 -> dispatch_only st1 st3.
Proof.
  intros ((A1 & A2 & A3 & A4 & A5) & evs & L & C & I & T)
         ((B1 & B2 & B3 & B4 & B5) & evs' & L' & C' & I' & T').
  split; [repeat split; congruence|].
  exists (evs ++ evs'). unfold added in *.
  rewrite L', L, <- app_assoc, constructions_app, invocations_app, teardowns_app.
  repeat split; lia.
Qed.

Lemma dispatch_only_emit e st : dispatch_event e -> dispatch_only st (emit e st).
Proof.
  intros (C & I & T). split; [repeat split|]. exists [e]. unfold added. auto.
Qed.

Lemma dispatch_only_set_queue q st : dispatch_only st (set_queue q st).
Proof. apply (dispatch_only_trans _ st); [apply dispatch_only_refl|].
  split; [repeat split|]. exists []. unfold added. simpl. rewrite app_nil_r. auto.
Qed.

Lemma dispatch_only_set_requests n st : dispatch_only st (set_requests n st).
Proof.
  split; [repeat split|]. exists []. unfold added. simpl. rewrite app_nil_r. auto.
Qed.

Lemma dispatch_only_respond id r st : dispatch_only st (respond id r st).
Proof. apply dispatch_only_emit. repeat split. Qed.

Lemma dispatch_only_send to c st st' :
  client_sendMessage to c st = Some st' -> dispatch_only st st'.
Proof.
  unfold client_sendMessage. destruct (client st); [|discriminate].
  intros [= <-]. apply dispatch_only_emit. repeat split.
Qed.

Lemma dispatch_only_invoke j st : dispatch_only st (snd (invoke j st)).
Proof.
  destruct j as [p m|p m u]; unfold invoke.
  - destruct (client_sendMessage _ _ st) as [st'|] eqn:E; simpl.
    + eapply dispatch_only_send; exact E.
    + apply dispatch_only_refl.
  - apply dispatch_only_emit. repeat split.
Qed.

Lemma dispatch_only_tryToStartAnother pending : forall st,
  dispatch_only st (tryToStartAnother pending st).
Proof.
  induction pending as [|t pending IH]; intros st; simpl.
  - apply dispatch_only_set_queue.
  - destruct (Nat.ltb _ _); [|apply dispatch_only_set_queue].
    pose proof (dispatch_only_invoke (tjob t) (emit (EStart (tid t)) st)) as Hi.
    assert (Hs : dispatch_only st (emit (EStart (tid t)) st))
      by (apply dispatch_only_emit; repeat split).
    destruct (invoke (tjob t) (emit (EStart (tid t)) st)) as [[ph|] st']; simpl in Hi.
    + eapply dispatch_only_trans; [exact Hs|].
      eapply dispatch_only_trans; [exact Hi | apply dispatch_only_set_queue].
    + eapply dispatch_only_trans; [exact Hs|].
      eapply dispatch_only_trans; [exact Hi|].
      eapply dispatch_only_trans; [apply dispatch_only_respond | apply IH].
Qed.

Lemma dispatch_only_settle t r st : dispatch_only st (settle t r st).
Proof.
  unfold settle, queue_next.
  eapply dispatch_only_trans; [apply dispatch_only_respond|].
  eapply dispatch_only_trans; [apply dispatch_only_set_queue|].
  apply dispatch_only_tryToStartAnother.
Qed.

Lemma dispatch_only_suspend t ph st : dispatch_only st (suspend t ph st).
Proof. apply dispatch_only_set_queue. Qed.

Lemma dispatch_only_fetch_settled id outcome st :
  dispatch_only st (fetch_settled id outcome st).
Proof.
  unfold fetch_settled.
  destruct (lookup_running id st) as [[t [| |]]|]; try apply dispatch_only_refl.
  destruct (tjob t) as [p m|p m u]; [apply dispatch_only_settle|].
  destruct outcome as [e|resp]; [apply dispatch_only_settle|].
  destruct (client_sendMessage _ _ st) as [st'|] eqn:E; [|apply dispatch_only_settle].
  eapply dispatch_only_trans; [eapply dispatch_only_send; exact E|].
  apply dispatch_only_suspend.
Qed.

Lemma dispatch_only_send_settled id outcome st :
  dispatch_only st (send_settled id outcome st).
Proof.
  unfold send_settled.
  destruct (lookup_running id st) as [[t [|next|]]|]; try apply dispatch_only_refl.
  - destruct outcome as [e|]; [apply dispatch_only_settle|].
    destruct next as [media|]; [|apply dispatch_only_settle].
    destruct (client_sendMessage _ _ st) as [st'|] eqn:E; [|apply dispatch_only_settle].
    eapply dispatch_only_trans; [eapply dispatch_only_send; exact E|].
    apply dispatch_only_suspend.
  - destruct outcome; apply dispatch_only_settle.
Qed.

Lemma dispatch_only_send_route (route : nat -> state -> state) st :
  (forall id s, dispatch_only s (route id s)) -> dispatch_only st (accept route st).
Proof.
  intros H. unfold accept.
  eapply dispatch_only_trans; [apply dispatch_only_set_requests | apply H].
Qed.

Lemma dispatch_never_touches_session_aux (world : env) (i : input) (st : state) :
  lifecycle_input i = false ->
  same_session st (step world i st) /\
  exists evs, added st (step world i st) evs /\
    constructions evs = 0 /\ invocations evs = 0 /\ teardowns evs = 0.
Proof.
  intros Hi. change (dispatch_only st (step world i st)).
  destruct i as [| | |q|q|s|id outcome|id outcome]; try discriminate; unfold step.
  - apply dispatch_only_send_route. intros id s. unfold app_get_send_message.
    destruct (_ || _); [apply dispatch_only_respond|].
    destruct (negb _); [apply dispatch_only_respond|].
    apply dispatch_only_tryToStartAnother.
  - apply dispatch_only_send_route. intros id s. unfold app_get_send_message_media.
    destruct (_ || _); [apply dispatch_only_respond|].
    destruct (negb _); [apply dispatch_only_respond|].
    apply dispatch_only_tryToStartAnother.
  - apply dispatch_only_fetch_settled.
  - apply dispatch_only_send_settled.
Qed.

(** X6.  The send routes and the settlement of a job's fetch or send
    never write [client], [qrCodeData], [isClientReady] or
    [isInitializing], and never construct, start up or tear down a client:
    the dispatch side only reads the handle. *)
Theorem dispatch_never_touches_session (world : env) (i : input) (st : state) :
  lifecycle_input i = false ->
  same_session st (step world i st) /\
  exists evs, added st (step world i st) evs /\
    constructions evs = 0 /\ invocations evs = 0 /\ teardowns evs = 0.
Proof.
  intros Hi. exact (dispatch_never_touches_session_aux world i st Hi).
Qed.

Lemma dispatch_never_touches_session_witness :
  let st := run logged_in [GET_initialize] initial_state in
  let i := GET_send_message (mkQuery (Some "5551234567") (Some "hi") None) in
  same_session st (step logged_in i st) /\
  exists evs, added st (step logged_in i st) evs /\
    constructions evs = 0 /\ invocations evs = 0 /\ teardowns evs = 0.
Proof.
  apply (dispatch_never_touches_session logged_in
           (GET_send_message (mkQuery (Some "5551234567") (Some "hi") None))
           (run logged_in [GET_initialize] initial_state)).
  reflexivity.
Defined.

Lemma sends_app xs ys : sends (xs ++ ys) = sends xs ++ sends ys.
Proof.
  induction xs as [|x xs IH]; simpl; [reflexivity|].
  destruct x; simpl; rewrite IH; reflexivity.
Qed.

Lemma sends_failed_attempts h k : sends (failed_attempts h k) = [].
Proof. revert h. induction k as [|k IH]; intros h; simpl; [|rewrite IH]; reflexivity. Qed.

Lemma no_teardown_in evs h : teardowns evs = 0 -> ~ In (EDestroy h) evs.
Proof.
  induction evs as [|e evs IH]; simpl; [tauto|].
  destruct e; simpl; intros H [Heq|Hin]; try discriminate; try (apply IH; assumption).
Qed.

(** The events a lifecycle handler adds: no job is invoked, no message
    is sent, and a teardown targets the handle held on entry. *)
Lemma initialize_events world st :
  exists evs,
    added st (snd (app_get_initialize world st)) evs /\
    admissions evs = [] /\ sends evs = [] /\
    (forall h, In (EDestroy h) evs -> client st = Some h).
Proof.
  rewrite app_get_initialize_eq.
  destruct (forced_close_cases world st)
    as [(h & e & G & C & T & E) |
        (st0 & pre & E & L0 & _ & _ & _ & _ & _ & N0 & _ & _ & _ & Hpre)].
  - rewrite E. exists [EDestroy h]. unfold added. simpl.
    repeat split; auto. intros h' [[= <-]|[]]. exact C.
  - rewrite E.
    destruct (initializeWhatsAppClient_cases world 3 (armed st0))
      as (k & st1 & Hk & E1 & L1 & _); [lia|].
    set (trace := failed_attempts (constructed (armed st0)) k ++
                  attempt (constructed (armed st0) + k)) in *.
    assert (Htrace : admissions trace = [] /\ sends trace = [] /\ teardowns trace = 0).
    { unfold trace. rewrite admissions_app, sends_app, teardowns_app,
        admissions_failed_attempts, sends_failed_attempts, teardowns_failed_attempts.
      auto. }
    destruct Htrace as (A & S & T).
    exists (pre ++ trace).
    assert (Hlog : forall b, added st (set_isInitializing b st1) (pre ++ trace)).
    { intros b. unfold added in *. simpl in *. rewrite L1, L0, <- app_assoc. reflexivity. }
    assert (Hrest : admissions (pre ++ trace) = [] /\ sends (pre ++ trace) = [] /\
              (forall h, In (EDestroy h) (pre ++ trace) -> client st = Some h)).
    { rewrite admissions_app, sends_app, A, S.
      destruct Hpre as [-> | (h & C & ->)]; simpl; repeat split; auto.
      - intros h Hin. exfalso. exact (no_teardown_in _ _ T Hin).
      - intros h' [[= <-]|Hin]; [exact C|]. exfalso. exact (no_teardown_in _ _ T Hin). }
    destruct (initializeWhatsAppClient world 3 (armed st0)) as [[[|]|e] st1'];
      simpl in E1; subst st1'; simpl; split; auto.
Qed.

Lemma close_events world st :
  exists evs,
    added st (snd (app_get_close world st)) evs /\
    admissions evs = [] /\ sends evs = [] /\
    (forall h, In (EDestroy h) evs -> client st = Some h).
Proof.
  unfold app_get_close, bind, ret, added. rewrite closeWhatsAppSession_eq.
  destruct (client st) as [h|] eqn:C.
  - exists [EDestroy h]. destruct (teardown world h); simpl; repeat split; auto;
      intros h' [[= <-]|[]]; reflexivity.
  - exists []. simpl. rewrite app_nil_r. repeat split; auto. intros h [].
Qed.

Lemma lifecycle_step_events world i st :
  lifecycle_input i = true ->
  queue (step world i st) = queue st /\
  exists evs,
    added st (step world i st) evs /\
    admissions evs = [] /\ sends evs = [] /\
    (forall h, In (EDestroy h) evs -> client st = Some h).
Proof.
  intros Hi.
  assert (Hserve : forall handler : M response,
            (forall s, queue (snd (handler s)) = queue s) ->
            (forall s, exists evs, added s (snd (handler s)) evs /\
               admissions evs = [] /\ sends evs = [] /\
               (forall h, In (EDestroy h) evs -> client s = Some h)) ->
            queue (accept (serve handler) st) = queue st /\
            exists evs, added st (accept (serve handler) st) evs /\
               admissions evs = [] /\ sends evs = [] /\
               (forall h, In (EDestroy h) evs -> client st = Some h)).
  { intros handler Hq Hev. unfold accept, serve.
    set (s0 := set_requests (S (requests st)) st).
    specialize (Hq s0). destruct (Hev s0) as (evs & L & A & S & D).
    unfold added in *.
    destruct (handler s0) as [[r|e] s1]; simpl in *; (split; [exact Hq|]).
    - exists (evs ++ [EResponse (requests st) r]).
      rewrite L, <- app_assoc, admissions_app, sends_app, A, S. repeat split; auto.
      intros h Hin. apply in_app_or in Hin. destruct Hin as [Hin|[Hin|[]]];
        [apply (D h Hin) | discriminate].
    - exists (evs ++ [EUnhandled (requests st) e]).
      rewrite L, <- app_assoc, admissions_app, sends_app, A, S. repeat split; auto.
      intros h Hin. apply in_app_or in Hin. destruct Hin as [Hin|[Hin|[]]];
        [apply (D h Hin) | discriminate]. }
  destruct i as [| | |q|q|s|id outcome|id outcome]; try discriminate; unfold step.
  - apply Hserve.
    + intros s. apply initialize_untouched.
    + intros s. apply initialize_events.
  - apply Hserve.
    + intros s. unfold app_get_close, bind, ret.
      pose proof (close_untouched world s) as (Q & _).
      destruct (closeWhatsAppSession world s) as [[[]|e] s']; exact Q.
    + intros s. apply close_events.
  - apply Hserve.
    + intros s. reflexivity.
    + intros s. exists []. unfold added. simpl. rewrite app_nil_r.
      repeat split; auto. intros h [].
  - destruct (deliver_plumbing s st) as (_ & _ & Q & _ & _ & L).
    split; [exact Q|]. exists []. unfold added. rewrite L, app_nil_r.
    repeat split; auto. intros h [].
Qed.

(** X7.  The lifecycle routes ([/initialize], [/close], [/status]) and the
    four signal handlers never touch the queue: the jobs in flight and the
    pending jobs stay as they are, no job is invoked and no message is
    sent.  Closing or restarting the session cancels no job. *)
Theorem lifecycle_never_touches_queue (world : env) (i : input) (st : state) :
  lifecycle_input i = true ->
  queue (step world i st) = queue st /\
  exists evs, added st (step world i st) evs /\ admissions evs = [] /\ sends evs = [].
Proof.
  intros Hi. destruct (lifecycle_step_events world i st Hi) as (Q & evs & L & A & S & _).
  split; [exact Q|]. exists evs. auto.
Qed.

Lemma lifecycle_never_touches_queue_witness :
  let st := run logged_in
              [GET_initialize;
               GET_send_message (mkQuery (Some "5551234567") (Some "hi") None)]
              initial_state in
  running (queue st) = [(mkTask 1 (TextJob "5551234567" "hi"), SendingText None)] /\
  queue (step logged_in GET_close st) = queue st /\
  exists evs, added st (step logged_in GET_close st) evs /\
              admissions evs = [] /\ sends evs = [].
Proof.
  split; [reflexivity|].
  apply (lifecycle_never_touches_queue logged_in GET_close
           (run logged_in
              [GET_initialize;
               GET_send_message (mkQuery (Some "5551234567") (Some "hi") None)]
              initial_state)).
  reflexivity.
Defined.

(** ** The ready flag and the handle *)

Lemma deliver_all_ready sigs : forall st,
  isClientReady (deliver_all sigs st) = true ->
  isClientReady st = true \/ In ready sigs.
Proof.
  induction sigs as [|s sigs IH]; intros st H; simpl in *; [auto|].
  destruct (IH _ H) as [Hs|Hin]; [|auto].
  destruct s; simpl in Hs; auto; discriminate.
Qed.

Lemma attempts_ready world retries : forall r st,
  isClientReady (snd (attempts world retries r st)) = true ->
  isClientReady st = true \/
  exists h, constructed st <= h < constructed st + r /\ In ready (fst (startup world h)).
Proof.
  induction r as [|r IH]; intros st H; [left; exact H|].
  rewrite attempts_S in H.
  assert (Hone : isClientReady (after_attempt world st) = true ->
            isClientReady st = true \/
            exists h, constructed st <= h < constructed st + S r /\
                      In ready (fst (startup world h))).
  { unfold after_attempt. intros Ha. apply deliver_all_ready in Ha.
    destruct Ha as [Ha|Ha]; [left; exact Ha|].
    right. exists (constructed st). split; [lia | exact Ha]. }
  destruct (snd (startup world (constructed st))) as [e|]; [|apply Hone; exact H].
  destruct (Nat.eqb _ _); [apply Hone; exact H|].
  destruct (after_attempt_frame world st) as (_ & _ & H3 & _).
  destruct (IH _ H) as [Ha | (h & Hh & Hin)].
  - apply Hone. exact Ha.
  - right. exists h. simpl in Hh. rewrite H3 in Hh. split; [lia | exact Hin].
Qed.

Lemma serve_ready (handler : M response) id st :
  isClientReady (serve handler id st) = isClientReady (snd (handler st)).
Proof. unfold serve. destruct (handler st) as [[r|e] st']; reflexivity. Qed.

(** X8.  The ready flag is raised only by a ready signal, delivered on
    its own or during a startup of [/initialize]; it is lowered only by a
    disconnected signal, by [/close] or by [/initialize].  No send request
    and no settlement of a job changes it. *)
Theorem ready_flag_transitions (world : env) (i : input) (st : state) :
  (isClientReady st = false -> isClientReady (step world i st) = true ->
   i = Signal ready \/
   i = GET_initialize /\
   exists h, constructed st <= h < constructed st + 3 /\
             In ready (fst (startup world h))) /\
  (isClientReady st = true -> isClientReady (step world i st) = false ->
   (exists reason, i = Signal (disconnected reason)) \/
   i = GET_close \/ i = GET_initialize).
Proof.
  assert (Hdispatch : lifecycle_input i = false ->
            isClientReady (step world i st) = isClientReady st).
  { intros Hi. destruct (dispatch_never_touches_session_aux world i st Hi)
      as ((_ & _ & R & _) & _). exact R. }
  split.
  - intros Hoff Hon.
    destruct i as [| | |q|q|s|id outcome|id outcome];
      try (rewrite Hdispatch in Hon by reflexivity; congruence).
    + right. split; [reflexivity|].
      unfold step, accept in Hon. rewrite serve_ready in Hon.
      rewrite app_get_initialize_eq in Hon.
      set (s0 := set_requests (S (requests st)) st) in *.
      destruct (forced_close_cases world s0)
        as [(h & e & _ & _ & _ & E) |
            (st0 & pre & E & _ & _ & _ & _ & _ & _ & N0 & _ & _ & R0 & _)];
        rewrite E in Hon.
      * simpl in Hon. congruence.
      * assert (Hin : isClientReady (snd (initializeWhatsAppClient world 3 (armed st0))) = true).
        { destruct (initializeWhatsAppClient world 3 (armed st0)) as [[[|]|e] s1];
            exact Hon. }
        apply attempts_ready in Hin. simpl in Hin. rewrite N0 in Hin.
        destruct Hin as [Hin|Hin]; [discriminate | exact Hin].
    + exfalso. unfold step, accept in Hon. rewrite serve_ready in Hon.
      unfold app_get_close, bind, ret in Hon. rewrite closeWhatsAppSession_eq in Hon.
      simpl in Hon. destruct (client st) as [h|]; [destruct (teardown world h)|];
        simpl in Hon; congruence.
    + exfalso. unfold step, accept in Hon. rewrite serve_ready in Hon.
      simpl in Hon. congruence.
    + destruct s; unfold step, deliver, on_qr, on_auth_failure, on_disconnected in Hon;
        simpl in Hon; auto; congruence.
  - intros Hon Hoff.
    destruct i as [| | |q|q|s|id outcome|id outcome];
      try (rewrite Hdispatch in Hoff by reflexivity; congruence); auto.
    + exfalso. unfold step, accept in Hoff. rewrite serve_ready in Hoff.
      simpl in Hoff. congruence.
    + destruct s; unfold step, deliver, on_qr, on_ready, on_auth_failure in Hoff;
        simpl in Hoff; try congruence. left. eauto.
Qed.

Lemma holds_latest_eq st st' :
  client st' = client st -> constructed st' = constructed st ->
  holds_latest st -> holds_latest st'.
Proof. unfold holds_latest. intros -> ->. auto. Qed.

Lemma serve_holds_latest (handler : M response) id st :
  holds_latest (snd (handler st)) -> holds_latest (serve handler id st).
Proof. unfold serve. destruct (handler st) as [[r|e] st']; exact (fun H => H). Qed.

Lemma initialize_holds_latest world st :
  holds_latest st -> holds_latest (snd (app_get_initialize world st)).
Proof.
  intros H. rewrite app_get_initialize_eq.
  destruct (forced_close_cases world st) as [(h & e & _ & _ & _ & E) | (st0 & pre & E & _)];
    rewrite E.
  - exact H.
  - destruct (initializeWhatsAppClient_cases world 3 (armed st0))
      as (k & st1 & _ & E1 & _ & C1 & N1 & _); [lia|].
    assert (H1 : holds_latest st1) by (unfold holds_latest; rewrite C1; exact N1).
    destruct (initializeWhatsAppClient world 3 (armed st0)) as [[[|]|e] st1'];
      simpl in E1; subst st1'; exact H1.
Qed.

Lemma close_holds_latest world st :
  holds_latest st -> holds_latest (snd (app_get_close world st)).
Proof.
  intros H. unfold app_get_close, bind, ret. rewrite closeWhatsAppSession_eq.
  destruct (client st) as [h|] eqn:C; [destruct (teardown world h)|]; simpl;
    unfold holds_latest in *; simpl; rewrite ?C in *; auto.
Qed.

Lemma step_holds_latest world i st :
  holds_latest st -> holds_latest (step world i st).
Proof.
  intros H.
  destruct (lifecycle_input i) eqn:Hi.
  - destruct i as [| | |q|q|s|id outcome|id outcome]; try discriminate; unfold step, accept.
    + apply serve_holds_latest, initialize_holds_latest. exact H.
    + apply serve_holds_latest, close_holds_latest. exact H.
    + apply serve_holds_latest. exact H.
    + destruct (deliver_plumbing s st) as (C & _ & _ & N & _). exact (holds_latest_eq _ _ C N H).
  - destruct (dispatch_never_touches_session_aux world i st Hi) as ((C & _ & _ & _ & N) & _).
    exact (holds_latest_eq _ _ C N H).
Qed.

(** X9.  In every reachable state the handle in [client], if any, is the
    client constructed last; and a teardown performed by any step targets
    exactly that client.  A client that was replaced without teardown can
    therefore never be torn down afterwards. *)
Theorem teardown_reaches_latest_only (world : env) (st : state) :
  reachable world st ->
  holds_latest st /\
  forall i evs h,
    added st (step world i st) evs -> In (EDestroy h) evs ->
    client st = Some h /\ constructed st = S h.
Proof.
  intros Hreach.
  assert (Hinv : holds_latest st).
  { induction Hreach as [|i st Hreach IH]; [exact I | apply step_holds_latest; exact IH]. }
  split; [exact Hinv|].
  intros i evs h L Hin.
  assert (Hclient : client st = Some h).
  { destruct (lifecycle_input i) eqn:Hi.
    - destruct (lifecycle_step_events world i st Hi) as (_ & evs' & L' & _ & _ & D).
      unfold added in *. rewrite L' in L. apply app_inv_head in L. subst evs'.
      apply D. exact Hin.
    - destruct (dispatch_never_touches_session_aux world i st Hi)
        as (_ & evs' & L' & _ & _ & T).
      unfold added in *. rewrite L' in L. apply app_inv_head in L. subst evs'.
      exfalso. exact (no_teardown_in _ _ T Hin). }
  split; [exact Hclient|]. unfold holds_latest in Hinv. rewrite Hclient in Hinv. exact Hinv.
Qed.

Lemma teardown_reaches_latest_only_witness :
  let st := run (resolves_after 2) [GET_initialize] initial_state in
  holds_latest st /\
  forall i evs h,
    added st (step (resolves_after 2) i st) evs -> In (EDestroy h) evs ->
    client st = Some h /\ constructed st = S h.
Proof.
  apply (teardown_reaches_latest_only (resolves_after 2)).
  apply reachable_run. apply reachable_initial.
Defined.

(** ** Further properties of the send routes *)

Lemma truthy_missing p : Js.truthy p = false <-> missing p.
Proof.
  unfold Js.truthy, missing. destruct p as [s|]; [|split; auto].
  destruct (String.eqb_spec s ""); simpl; split; auto; try discriminate.
  - intros _. right. congruence.
  - intros [H|[= H]]; [discriminate | contradiction].
Qed.

(** X10.  A send request with an absent or empty required parameter is
    answered 400 before the ready flag is looked at: whatever the state of
    the session and of the queue, the only effect is that reply. *)
Theorem missing_parameters_rejected (world : env) (st : state) (q : query) :
  (missing (phone q) \/ missing (message_param q) ->
   exists r, status r = 400 /\
     step world (GET_send_message q) st =
       respond (requests st) r (set_requests (S (requests st)) st)) /\
  (missing (phone q) \/ missing (message_param q) \/ missing (fileUrl q) ->
   exists r, status r = 400 /\
     step world (GET_send_message_media q) st =
       respond (requests st) r (set_requests (S (requests st)) st)).
Proof.
  split.
  - intros H. unfold step, accept, app_get_send_message.
    assert (E : negb (Js.truthy (phone q)) || negb (Js.truthy (message_param q)) = true).
    { destruct H as [H|H]; apply truthy_missing in H; rewrite H; simpl;
        [reflexivity | apply orb_true_r]. }
    rewrite E. eexists. split; [|reflexivity]. reflexivity.
  - intros H. unfold step, accept, app_get_send_message_media.
    assert (E : negb (Js.truthy (phone q)) || negb (Js.truthy (message_param q))
                || negb (Js.truthy (fileUrl q)) = true).
    { destruct H as [H|[H|H]]; apply truthy_missing in H; rewrite H; simpl;
        [reflexivity | rewrite orb_true_r; reflexivity | apply orb_true_r]. }
    rewrite E. eexists. split; [|reflexivity]. reflexivity.
Qed.

(** X11.  A text job admitted into a free slot calls [client.sendMessage]
    exactly once, with [<phone>@c.us] and the message, on the handle then
    in [client].  When that send resolves the request is answered with
    success, when it rejects with the 500 send error; either way the slot
    is free again and nothing else was sent. *)
Theorem text_job_sends_once
    (world : env) (st : state) (h : handle) (p m : string) :
  isClientReady st = true -> client st = Some h ->
  waiting (queue st) = [] ->
  length (running (queue st)) < concurrency (queue st) ->
  fresh_id (requests st) st ->
  well_formed (TextJob p m) ->
  let id := requests st in
  let st1 := step world (GET_send_message (mkQuery (Some p) (Some m) None)) st in
  added st st1 [EStart id; ESendMessage h (chatId p) (Text m)] /\
  (forall outcome,
     let st2 := step world (SendSettled id outcome) st1 in
     added st1 st2
       [EResponse id (match outcome with
                      | None => sent_response (TextJob p m)
                      | Some _ => send_error_response (TextJob p m)
                      end)] /\
     running (queue st2) = running (queue st) /\
     waiting (queue st2) = []).
Proof.
  intros Hready Hclient Hw Hslot Hfresh Hwf id st1.
  set (t := mkTask id (TextJob p m)).
  assert (E1 : st1 = tryToStartAnother [t] (set_requests (S id) st)).
  { pose proof (submit_blocking world st h (TextJob p m) Hready Hclient Hwf (or_introl Hw))
      as Hs.
    unfold submission in Hs. unfold st1. rewrite Hs.
    unfold queue_add. simpl. rewrite Hw. reflexivity. }
  destruct (admit_blocking t (set_requests (S id) st) h Hclient Hslot)
    as (R1 & W1 & C1 & L1 & K1 & B1 & _).
  rewrite <- E1 in R1, W1, C1, L1, K1, B1. simpl in R1, C1, L1.
  assert (F1 : in_flight st1 t (SendingText None) (running (queue st)) []).
  { split; [exact R1|]. split; [exact Hfresh | constructor]. }
  split; [exact L1|].
  intros outcome st2.
  assert (Look1 : lookup_running id st1 = Some (t, SendingText None))
    by exact (in_flight_lookup _ _ _ _ _ F1).
  unfold st2, step, send_settled. rewrite Look1.
  destruct outcome as [e|].
  - destruct (settle_idle st1 t _ _ _ (send_error_response (TextJob p m)) F1 W1)
      as (R2 & W2 & _ & L2 & _).
    rewrite app_nil_r in R2. auto.
  - destruct (settle_idle st1 t _ _ _ (sent_response (TextJob p m)) F1 W1)
      as (R2 & W2 & _ & L2 & _).
    rewrite app_nil_r in R2. auto.
Qed.

Lemma text_job_sends_once_witness :
  let st := run logged_in [GET_initialize] initial_state in
  let st1 := step logged_in
               (GET_send_message (mkQuery (Some "5551234567") (Some "hi") None)) st in
  added st st1 [EStart 1; ESendMessage 0 "5551234567@c.us" (Text "hi")] /\
  (forall outcome,
     let st2 := step logged_in (SendSettled 1 outcome) st1 in
     added st1 st2
       [EResponse 1 (match outcome with
                     | None => sent_response (TextJob "5551234567" "hi")
                     | Some _ => send_error_response (TextJob "5551234567" "hi")
                     end)] /\
     running (queue st2) = running (queue st) /\
     waiting (queue st2) = []).
Proof.
  assert (Hwf : well_formed (TextJob "5551234567" "hi")) by (split; discriminate).
  assert (Hslot : length (running (queue (run logged_in [GET_initialize] initial_state)))
                  < concurrency (queue (run logged_in [GET_initialize] initial_state))).
  { simpl. lia. }
  exact (text_job_sends_once logged_in (run logged_in [GET_initialize] initial_state)
           0 "5551234567" "hi" eq_refl eq_refl eq_refl Hslot (Forall_nil _) Hwf).
Defined.

(** ** Independence of the jobs in flight *)

Lemma tryToStartAnother_extends pending : forall st,
  exists started taken,
    running (queue (tryToStartAnother pending st)) = running (queue st) ++ started /\
    pending = taken ++ waiting (queue (tryToStartAnother pending st)).
Proof.
  induction pending as [|t pending IH]; intros st; simpl.
  - exists [], []. rewrite app_nil_r. auto.
  - destruct (Nat.ltb _ _).
    + pose proof (invoke_frame (tjob t) (emit (EStart (tid t)) st)) as (Q & _).
      destruct (invoke (tjob t) (emit (EStart (tid t)) st)) as [[ph|] st']; simpl in *.
      * exists [(t, ph)], [t]. rewrite Q. auto.
      * destruct (IH (respond (tid t) (send_error_response (tjob t)) st'))
          as (started & taken & R & W).
        exists started, (t :: taken). simpl in R. rewrite Q in R. simpl.
        split; [exact R | f_equal; exact W].
    + exists [], []. simpl. rewrite app_nil_r. auto.
Qed.

Lemma filter_twice {A} (f : A -> bool) l : filter f (filter f l) = filter f l.
Proof.
  induction l as [|a l IH]; simpl; [reflexivity|].
  destruct (f a) eqn:E; simpl; rewrite ?E, IH; reflexivity.
Qed.

Lemma filter_replaced id t ph l :
  tid t = id ->
  filter (fun tp => negb (is_task id tp))
         (map (fun tp => if is_task id tp then (t, ph) else tp) l) =
  filter (fun tp => negb (is_task id tp)) l.
Proof.
  intros Ht. induction l as [|a l IH]; simpl; [reflexivity|].
  destruct (is_task id a) eqn:E; simpl.
  - unfold is_task at 1. simpl. rewrite Ht, Nat.eqb_refl. simpl. exact IH.
  - rewrite E. simpl. rewrite IH. reflexivity.
Qed.

Lemma lookup_running_id id st t ph : lookup_running id st = Some (t, ph) -> tid t = id.
Proof.
  unfold lookup_running. intros H. apply find_some in H. destruct H as (_ & H).
  unfold is_task in H. simpl in H. apply Nat.eqb_eq. exact H.
Qed.

Lemma settle_others t r st :
  exists admitted taken,
    others_in_flight (tid t) (settle t r st) = others_in_flight (tid t) st ++ admitted /\
    waiting (queue st) = taken ++ waiting (queue (settle t r st)).
Proof.
  unfold settle, queue_next, others_in_flight.
  match goal with |- context [tryToStartAnother ?p ?s] =>
    destruct (tryToStartAnother_extends p s) as (started & taken & R & W) end.
  rewrite R. simpl in W |- *. rewrite filter_app, filter_twice.
  eexists _, taken. split; [reflexivity | exact W].
Qed.

Lemma suspend_others t ph to c st st' :
  client_sendMessage to c st = Some st' ->
  others_in_flight (tid t) (suspend t ph st') = others_in_flight (tid t) st /\
  waiting (queue (suspend t ph st')) = waiting (queue st).
Proof.
  unfold client_sendMessage. destruct (client st); [|discriminate]. intros [= <-].
  unfold others_in_flight, suspend. simpl.
  rewrite (filter_replaced (tid t) t ph _ eq_refl). auto.
Qed.

(** X12.  When the fetch or a send of job [id] settles, with success or
    with failure, every other job in flight stays in flight, in the same
    order and in the same phase; jobs are only added behind them, and they
    are taken from the front of the pending sequence.  One job's failure
    cancels or blocks no other job. *)
Theorem settlement_leaves_other_jobs (world : env) (st : state) (id : nat) :
  (forall outcome,
     let st' := step world (SendSettled id outcome) st in
     exists admitted taken,
       others_in_flight id st' = others_in_flight id st ++ admitted /\
       waiting (queue st) = taken ++ waiting (queue st')) /\
  (forall outcome,
     let st' := step world (FetchSettled id outcome) st in
     exists admitted taken,
       others_in_flight id st' = others_in_flight id st ++ admitted /\
       waiting (queue st) = taken ++ waiting (queue st')).
Proof.
  assert (Hnone : exists admitted taken : _,
            others_in_flight id st = others_in_flight id st ++ admitted /\
            waiting (queue st) = taken ++ waiting (queue st)).
  { exists [], []. rewrite app_nil_r. auto. }
  assert (Hsettle : forall t ph r, lookup_running id st = Some (t, ph) ->
            exists admitted taken,
              others_in_flight id (settle t r st) = others_in_flight id st ++ admitted /\
              waiting (queue st) = taken ++ waiting (queue (settle t r st))).
  { intros t ph r Look. apply lookup_running_id in Look. subst id. apply settle_others. }
  assert (Hsuspend : forall t ph ph' to c st', lookup_running id st = Some (t, ph) ->
            client_sendMessage to c st = Some st' ->
            exists admitted taken,
              others_in_flight id (suspend t ph' st') = others_in_flight id st ++ admitted /\
              waiting (queue st) = taken ++ waiting (queue (suspend t ph' st'))).
  { intros t ph ph' to c st' Look E. apply lookup_running_id in Look. subst id.
    destruct (suspend_others t ph' to c st st' E) as (O & W).
    exists [], []. rewrite O, W, app_nil_r. auto. }
  split; intros outcome st'; unfold st', step.
  - unfold send_settled.
    destruct (lookup_running id st) as [[t [|next|]]|] eqn:Look; try exact Hnone.
    + destruct outcome as [e|]; [eapply Hsettle; reflexivity|].
      destruct next as [media|]; [|eapply Hsettle; reflexivity].
      destruct (client_sendMessage _ _ st) as [s|] eqn:E; [|eapply Hsettle; reflexivity].
      eapply Hsuspend; [reflexivity | exact E].
    + destruct outcome; eapply Hsettle; reflexivity.
  - unfold fetch_settled.
    destruct (lookup_running id st) as [[t [| |]]|] eqn:Look; try exact Hnone.
    destruct (tjob t) as [p m|p m u]; [eapply Hsettle; reflexivity|].
    destruct outcome as [e|resp]; [eapply Hsettle; reflexivity|].
    destruct (client_sendMessage _ _ st) as [s|] eqn:E; [|eapply Hsettle; reflexivity].
    eapply Hsuspend; [reflexivity | exact E].
Qed.

(** ** Where the requests are *)

Lemma rejected_app xs ys : rejected (xs ++ ys) = rejected xs ++ rejected ys.
Proof.
  induction xs as [|x xs IH]; simpl; [reflexivity|].
  destruct x; simpl; rewrite IH; reflexivity.
Qed.

Lemma replied_failed_attempts h k : replied (failed_attempts h k) = [].
Proof. revert h. induction k as [|k IH]; intros h; simpl; [|rewrite IH]; reflexivity. Qed.

Lemma rejected_failed_attempts h k : rejected (failed_attempts h k) = [].
Proof. revert h. induction k as [|k IH]; intros h; simpl; [|rewrite IH]; reflexivity. Qed.

Lemma invoke_no_reply j st :
  replied (log (snd (invoke j st))) = replied (log st) /\
  rejected (log (snd (invoke j st))) = rejected (log st).
Proof.
  destruct j; unfold invoke, client_sendMessage; [destruct (client st)|]; simpl;
    rewrite ?replied_app, ?rejected_app; simpl; rewrite ?app_nil_r; auto.
Qed.

Lemma ids_replaced id t ph (l : list (task * phase)) :
  tid t = id ->
  map (fun tp => tid (fst tp)) (map (fun tp => if is_task id tp then (t, ph) else tp) l) =
  map (fun tp => tid (fst tp)) l.
Proof.
  intros Ht. induction l as [|a l IH]; simpl; [reflexivity|].
  rewrite IH. f_equal. unfold is_task. destruct (Nat.eqb_spec (tid (fst a)) id) as [E|E].
  - simpl. congruence.
  - reflexivity.
Qed.

(** Removing the one job of a request from the jobs in flight. *)
Lemma ids_without id (l : list (task * phase)) :
  NoDup (map (fun tp => tid (fst tp)) l) ->
  In id (map (fun tp => tid (fst tp)) l) ->
  Permutation (id :: map (fun tp => tid (fst tp))
                         (filter (fun tp => negb (is_task id tp)) l))
              (map (fun tp => tid (fst tp)) l).
Proof.
  induction l as [|a l IH]; simpl; [tauto|].
  intros Hnd Hin. inversion Hnd as [|? ? Hnotin Hnd']; subst.
  unfold is_task at 1. destruct (Nat.eqb_spec (tid (fst a)) id) as [E|E]; simpl.
  - subst id. rewrite filter_fresh; [reflexivity|].
    apply Forall_forall. intros x Hx Heq. apply Hnotin. rewrite <- Heq.
    apply (in_map (fun tp => tid (fst tp))). exact Hx.
  - destruct Hin as [Hin|Hin]; [contradiction|].
    eapply Permutation_trans; [apply perm_swap|]. apply perm_skip. apply IH; assumption.
Qed.

(** Admission moves identifiers between the pending jobs, the jobs in
    flight and the replies, and loses none. *)
Lemma tryToStartAnother_accounted pending : forall st,
  Permutation (accounted (tryToStartAnother pending st))
              (replied (log st) ++ rejected (log st) ++ running_ids st ++ map tid pending).
Proof.
  unfold accounted, running_ids, waiting_ids.
  induction pending as [|t pending IH]; intros st; simpl.
  - reflexivity.
  - destruct (Nat.ltb _ _); [|reflexivity].
    pose proof (invoke_frame (tjob t) (emit (EStart (tid t)) st)) as (Q & _).
    pose proof (invoke_no_reply (tjob t) (emit (EStart (tid t)) st)) as (R & J).
    simpl in R, J. rewrite replied_app in R. rewrite rejected_app in J. simpl in R, J.
    rewrite app_nil_r in R, J.
    destruct (invoke (tjob t) (emit (EStart (tid t)) st)) as [[ph|] st']; simpl in *.
    + rewrite R, J, Q, map_app, <- app_assoc. reflexivity.
    + eapply Permutation_trans; [apply IH|]. simpl.
      rewrite replied_app, rejected_app, R, J, Q. simpl. rewrite app_nil_r, <- app_assoc. simpl.
      apply Permutation_app_head.
      rewrite !app_assoc. apply Permutation_middle.
Qed.

Lemma initialize_no_reply world st :
  replied (log (snd (app_get_initialize world st))) = replied (log st) /\
  rejected (log (snd (app_get_initialize world st))) = rejected (log st).
Proof.
  rewrite app_get_initialize_eq.
  destruct (forced_close_cases world st)
    as [(h & e & G & C & T & E) |
        (st0 & pre & E & L0 & _ & _ & _ & _ & _ & N0 & _ & _ & _ & Hpre)]; rewrite E.
  - simpl. rewrite replied_app, rejected_app. simpl. rewrite !app_nil_r. auto.
  - destruct (initializeWhatsAppClient_cases world 3 (armed st0))
      as (k & st1 & Hk & E1 & L1 & _); [lia|].
    assert (Hlog : replied (log st1) = replied (log st) /\
                   rejected (log st1) = rejected (log st)).
    { unfold added in *. simpl in L1. rewrite L1, L0.
      rewrite !replied_app, !rejected_app, replied_failed_attempts, rejected_failed_attempts.
      destruct Hpre as [-> | (h & _ & ->)]; simpl; rewrite !app_nil_r; auto. }
    destruct (initializeWhatsAppClient world 3 (armed st0)) as [[[|]|e] st1'];
      simpl in E1; subst st1'; exact Hlog.
Qed.

Lemma close_no_reply world st :
  replied (log (snd (app_get_close world st))) = replied (log st) /\
  rejected (log (snd (app_get_close world st))) = rejected (log st).
Proof.
  unfold app_get_close, bind, ret. rewrite closeWhatsAppSession_eq.
  destruct (client st) as [h|]; [destruct (teardown world h)|]; simpl;
    rewrite ?replied_app, ?rejected_app; simpl; rewrite ?app_nil_r; auto.
Qed.

Lemma seq_snoc n : seq 0 (S n) = seq 0 n ++ [n].
Proof. rewrite seq_S. reflexivity. Qed.

(** A route that answers or rejects its own request and leaves the queue
    alone. *)
Lemma accept_serve_accounted (handler : M response) st :
  (forall s, queue_untouched s (snd (handler s))) ->
  (forall s, replied (log (snd (handler s))) = replied (log s) /\
             rejected (log (snd (handler s))) = rejected (log s)) ->
  Permutation (accounted st) (seq 0 (requests st)) ->
  requests (accept (serve handler) st) = S (requests st) /\
  Permutation (accounted (accept (serve handler) st)) (seq 0 (S (requests st))).
Proof.
  intros Hq Hr Hinv. unfold accept, serve.
  set (s0 := set_requests (S (requests st)) st).
  destruct (Hq s0) as (Q & N & _). destruct (Hr s0) as (R & J).
  rewrite seq_snoc.
  unfold accounted, running_ids, waiting_ids in *.
  destruct (handler s0) as [[r|e] s1] eqn:E; simpl in *.
  - rewrite replied_app, rejected_app, R, J, Q. simpl. rewrite app_nil_r.
    split; [exact N|].
    rewrite <- app_assoc. simpl.
    eapply Permutation_trans; [apply Permutation_sym, Permutation_middle|].
    eapply Permutation_trans; [|apply Permutation_cons_append].
    apply perm_skip. exact Hinv.
  - rewrite replied_app, rejected_app, R, J, Q. simpl. rewrite app_nil_r.
    split; [exact N|].
    rewrite <- (app_assoc (rejected (log st))). simpl.
    rewrite app_assoc.
    eapply Permutation_trans; [apply Permutation_sym, Permutation_middle|].
    eapply Permutation_trans; [|apply Permutation_cons_append].
    apply perm_skip. rewrite <- app_assoc. exact Hinv.
Qed.

Lemma accept_send_accounted (j : job) (refuse : state -> option response) st :
  let route := fun id s =>
    match refuse s with
    | Some r => respond id r s
    | None => queue_add (mkTask id j) s
    end in
  Permutation (accounted st) (seq 0 (requests st)) ->
  requests (accept route st) = S (requests st) /\
  Permutation (accounted (accept route st)) (seq 0 (S (requests st))).
Proof.
  intros route Hinv. unfold route, accept. rewrite seq_snoc.
  set (s0 := set_requests (S (requests st)) st).
  destruct (refuse s0) as [r|].
  - unfold accounted, running_ids, waiting_ids in *. simpl.
    rewrite replied_app, rejected_app. simpl. rewrite app_nil_r.
    split; [reflexivity|].
    rewrite <- app_assoc. simpl.
    eapply Permutation_trans; [apply Permutation_sym, Permutation_middle|].
    eapply Permutation_trans; [|apply Permutation_cons_append].
    apply perm_skip. exact Hinv.
  - unfold queue_add.
    destruct (tryToStartAnother_spec (waiting (queue s0) ++ [mkTask (requests st) j]) s0)
      as (_ & _ & _ & N & _).
    split; [exact N|].
    eapply Permutation_trans; [apply tryToStartAnother_accounted|].
    unfold accounted, running_ids, waiting_ids in Hinv. simpl.
    rewrite map_app. simpl. rewrite !app_assoc. apply Permutation_app_tail.
    rewrite <- !app_assoc. exact Hinv.
Qed.

Lemma settle_accounted t ph r st :
  In (t, ph) (running (queue st)) -> NoDup (running_ids st) ->
  Permutation (accounted (settle t r st)) (accounted st).
Proof.
  intros Hin Hnd. unfold settle, queue_next.
  eapply Permutation_trans; [apply tryToStartAnother_accounted|].
  unfold accounted, running_ids, waiting_ids in *. simpl.
  rewrite replied_app, rejected_app. simpl. rewrite app_nil_r, <- app_assoc. simpl.
  apply Permutation_app_head.
  eapply Permutation_trans; [apply Permutation_middle|].
  apply Permutation_app_head.
  change (Permutation
            ((tid t :: map (fun tp => tid (fst tp))
                           (filter (fun tp => negb (is_task (tid t) tp)) (running (queue st))))
             ++ map tid (waiting (queue st)))
            (map (fun tp => tid (fst tp)) (running (queue st)) ++ map tid (waiting (queue st)))).
  apply Permutation_app_tail. apply ids_without; [exact Hnd|].
  apply (in_map (fun tp => tid (fst tp)) _ _ Hin).
Qed.

Lemma suspend_accounted t ph to c st st' :
  client_sendMessage to c st = Some st' ->
  accounted (suspend t ph st') = accounted st.
Proof.
  unfold client_sendMessage. destruct (client st); [|discriminate]. intros [= <-].
  unfold accounted, running_ids, waiting_ids, suspend. simpl.
  rewrite replied_app, rejected_app. simpl. rewrite !app_nil_r.
  rewrite (ids_replaced (tid t) t ph _ eq_refl). reflexivity.
Qed.

Lemma lookup_running_in id st t ph :
  lookup_running id st = Some (t, ph) -> In (t, ph) (running (queue st)).
Proof. unfold lookup_running. intros H. apply find_some in H. apply H. Qed.

Lemma accounted_NoDup st :
  Permutation (accounted st) (seq 0 (requests st)) ->
  NoDup (accounted st) /\ NoDup (replied (log st)) /\ NoDup (running_ids st).
Proof.
  intros H. assert (Hnd : NoDup (accounted st)).
  { eapply Permutation_NoDup; [apply Permutation_sym; exact H | apply seq_NoDup]. }
  split; [exact Hnd|]. unfold accounted in Hnd. split.
  - apply NoDup_app_remove_r in Hnd. exact Hnd.
  - apply NoDup_app_remove_l, NoDup_app_remove_l, NoDup_app_remove_r in Hnd. exact Hnd.
Qed.

Lemma step_accounted world i st :
  Permutation (accounted st) (seq 0 (requests st)) ->
  Permutation (accounted (step world i st)) (seq 0 (requests (step world i st))).
Proof.
  intros Hinv.
  destruct (accounted_NoDup st Hinv) as (_ & _ & Hnd).
  assert (Hsettle : forall t ph r, In (t, ph) (running (queue st)) ->
            Permutation (accounted (settle t r st)) (seq 0 (requests (settle t r st)))).
  { intros t ph r Hin.
    destruct (settle_quiet t r st) as (_ & _ & _ & N). rewrite N.
    eapply Permutation_trans; [eapply settle_accounted; eassumption | exact Hinv]. }
  assert (Hsuspend : forall t ph to c st', client_sendMessage to c st = Some st' ->
            Permutation (accounted (suspend t ph st')) (seq 0 (requests (suspend t ph st')))).
  { intros t ph to c st' E.
    destruct (suspend_after_send_quiet t ph to c st st' E) as (_ & _ & _ & N).
    rewrite N, (suspend_accounted t ph to c st st' E). exact Hinv. }
  destruct i as [| | |q|q|s|id outcome|id outcome]; unfold step.
  - assert (Hq : forall s, queue_untouched s (snd (app_get_initialize world s)))
      by (intros s; apply initialize_untouched).
    destruct (accept_serve_accounted (app_get_initialize world) st Hq
                (initialize_no_reply world) Hinv) as (N & P).
    rewrite N. exact P.
  - assert (Hq : forall s, queue_untouched s (snd (app_get_close world s))).
    { intros s. unfold app_get_close, bind, ret.
      pose proof (close_untouched world s) as H.
      destruct (closeWhatsAppSession world s) as [[[]|e] s']; exact H. }
    destruct (accept_serve_accounted (app_get_close world) st Hq
                (close_no_reply world) Hinv) as (N & P).
    rewrite N. exact P.
  - assert (Hq : forall s, queue_untouched s (snd (app_get_status s)))
      by (intros s; unfold queue_untouched; auto).
    assert (Hr : forall s, replied (log (snd (app_get_status s))) = replied (log s) /\
                           rejected (log (snd (app_get_status s))) = rejected (log s))
      by (intros s; split; reflexivity).
    destruct (accept_serve_accounted app_get_status st Hq Hr Hinv) as (N & P).
    rewrite N. exact P.
  - pose proof (accept_send_accounted (TextJob (param (phone q)) (param (message_param q)))
      (fun s => if negb (Js.truthy (phone q)) || negb (Js.truthy (message_param q))
                then Some (Json 400 [("error",
                       JString "Se requieren los parámetros phone y message")])
                else if negb (isClientReady s) then Some not_ready_response else None) st Hinv)
      as (N & P).
    unfold accept, app_get_send_message in *. cbv beta zeta in N, P.
    destruct (negb (Js.truthy (phone q)) || negb (Js.truthy (message_param q)));
      [|destruct (negb (isClientReady (set_requests (S (requests st)) st)))];
      cbv iota in N, P; rewrite N; exact P.
  - pose proof (accept_send_accounted
      (MediaJob (param (phone q)) (param (message_param q)) (param (fileUrl q)))
      (fun s => if negb (Js.truthy (phone q)) || negb (Js.truthy (message_param q))
                   || negb (Js.truthy (fileUrl q))
                then Some (Json 400 [("error",
                       JString "Se requieren los parámetros phone, message y fileUrl")])
                else if negb (isClientReady s) then Some not_ready_response else None) st Hinv)
      as (N & P).
    unfold accept, app_get_send_message_media in *. cbv beta zeta in N, P.
    destruct (negb (Js.truthy (phone q)) || negb (Js.truthy (message_param q))
              || negb (Js.truthy (fileUrl q)));
      [|destruct (negb (isClientReady (set_requests (S (requests st)) st)))];
      cbv iota in N, P; rewrite N; exact P.
  - destruct (deliver_plumbing s st) as (_ & _ & Q & _ & N & L).
    unfold accounted, running_ids, waiting_ids. rewrite Q, N, L. exact Hinv.
  - unfold fetch_settled.
    destruct (lookup_running id st) as [[t [| |]]|] eqn:Look; try exact Hinv.
    apply lookup_running_in in Look.
    destruct (tjob t) as [p m|p m u]; [eapply Hsettle; exact Look|].
    destruct outcome as [e|resp]; [eapply Hsettle; exact Look|].
    destruct (client_sendMessage _ _ st) as [s|] eqn:E; [|eapply Hsettle; exact Look].
    eapply Hsuspend; exact E.
  - unfold send_settled.
    destruct (lookup_running id st) as [[t [|next|]]|] eqn:Look; try exact Hinv;
      apply lookup_running_in in Look.
    + destruct outcome as [e|]; [eapply Hsettle; exact Look|].
      destruct next as [media|]; [|eapply Hsettle; exact Look].
      destruct (client_sendMessage _ _ st) as [s|] eqn:E; [|eapply Hsettle; exact Look].
      eapply Hsuspend; exact E.
    + destruct outcome; eapply Hsettle; exact Look.
Qed.

(** X13.  No request is answered twice.  In every reachable state the
    requests that have been replied to, those whose job is in flight and
    those whose job is pending are pairwise different, and each is listed
    once: no request gets two replies, no request has two jobs, and no
    request has a reply while its job is still in flight or pending.
    Every one of them is a request that was received. *)
Theorem no_request_answered_twice (world : env) (st : state) :
  reachable world st ->
  NoDup (replied (log st) ++ running_ids st ++ waiting_ids st) /\
  NoDup (replied (log st)) /\
  Forall (fun id => id < requests st)
         (replied (log st) ++ running_ids st ++ waiting_ids st).
Proof.
  intros Hreach.
  assert (Hinv : Permutation (accounted st) (seq 0 (requests st))).
  { induction Hreach as [|i st Hreach IH]; [reflexivity | apply step_accounted; exact IH]. }
  destruct (accounted_NoDup st Hinv) as (Hall & Hrep & _).
  unfold accounted in Hall, Hinv.
  assert (Hswap : Permutation
            (replied (log st) ++ rejected (log st) ++ running_ids st ++ waiting_ids st)
            (rejected (log st) ++ replied (log st) ++ running_ids st ++ waiting_ids st))
    by apply Permutation_app_swap_app.
  split; [|split; [exact Hrep|]].
  - apply (Permutation_NoDup Hswap) in Hall.
    apply NoDup_app_remove_l in Hall. exact Hall.
  - apply Forall_forall. intros id Hin.
    assert (Hacc : In id (seq 0 (requests st))).
    { apply (Permutation_in id Hinv). apply (Permutation_in id (Permutation_sym Hswap)).
      apply in_or_app. right. exact Hin. }
    apply in_seq in Hacc. lia.
Qed.

Lemma no_request_answered_twice_witness :
  let st := run logged_in
              [GET_initialize;
               GET_send_message (mkQuery (Some "5551234567") (Some "hi") None);
               GET_send_message (mkQuery None (Some "hi") None);
               SendSettled 1 None; GET_close]
              initial_state in
  NoDup (replied (log st) ++ running_ids st ++ waiting_ids st) /\
  NoDup (replied (log st)) /\
  Forall (fun id => id < requests st)
         (replied (log st) ++ running_ids st ++ waiting_ids st).
Proof.
  apply (no_request_answered_twice logged_in).
  apply reachable_run. apply reachable_initial.
Defined.

(** ** No job waits while a slot is free *)

Lemma tryToStartAnother_fills pending : forall st,
  concurrency (queue st) <= S (length (running (queue st))) ->
  saturated (tryToStartAnother pending st).
Proof.
  unfold saturated.
  induction pending as [|t pending IH]; intros st Hc; simpl; [left; reflexivity|].
  destruct (Nat.ltb_spec (length (running (queue st))) (concurrency (queue st))) as [Hlt|Hge].
  - pose proof (invoke_frame (tjob t) (emit (EStart (tid t)) st)) as (Q & _).
    destruct (invoke (tjob t) (emit (EStart (tid t)) st)) as [[ph|] st']; simpl in *.
    + right. rewrite Q, length_app. simpl. lia.
    + apply IH. simpl. rewrite Q. exact Hc.
  - right. simpl. exact Hge.
Qed.

Lemma tryToStartAnother_single t st : saturated (tryToStartAnother [t] st).
Proof.
  unfold saturated. simpl.
  destruct (Nat.ltb_spec (length (running (queue st))) (concurrency (queue st))) as [Hlt|Hge].
  - destruct (invoke (tjob t) (emit (EStart (tid t)) st)) as [[ph|] st']; simpl; auto.
  - right. simpl. exact Hge.
Qed.

Lemma queue_add_saturates t st : saturated st -> saturated (queue_add t st).
Proof.
  intros [Hw|Hfull]; unfold queue_add.
  - rewrite Hw. apply tryToStartAnother_single.
  - apply tryToStartAnother_fills. lia.
Qed.

Lemma settle_saturates t ph r st :
  In (t, ph) (running (queue st)) -> NoDup (running_ids st) ->
  saturated st -> saturated (settle t r st).
Proof.
  intros Hin Hnd Hsat. unfold settle, queue_next.
  destruct Hsat as [Hw|Hfull].
  - simpl. rewrite Hw. left. reflexivity.
  - apply tryToStartAnother_fills. simpl.
    assert (Hlen : S (length (filter (fun tp => negb (is_task (tid t) tp))
                                     (running (queue st)))) =
                   length (running (queue st))).
    { pose proof (ids_without (tid t) (running (queue st)) Hnd
                    (in_map (fun tp => tid (fst tp)) _ _ Hin)) as P.
      apply Permutation_length in P. simpl in P. rewrite !length_map in P. exact P. }
    lia.
Qed.

Lemma suspend_saturates t ph to c st st' :
  client_sendMessage to c st = Some st' -> saturated st -> saturated (suspend t ph st').
Proof.
  unfold client_sendMessage. destruct (client st); [|discriminate]. intros [= <-].
  unfold saturated, suspend. simpl. rewrite length_map. auto.
Qed.

Lemma step_saturated world i st :
  Permutation (accounted st) (seq 0 (requests st)) ->
  saturated st -> saturated (step world i st).
Proof.
  intros Hinv Hsat.
  destruct (accounted_NoDup st Hinv) as (_ & _ & Hnd).
  destruct (lifecycle_input i) eqn:Hi.
  - destruct (lifecycle_step_events world i st Hi) as (Q & _).
    unfold saturated. rewrite Q. exact Hsat.
  - destruct i as [| | |q|q|s|id outcome|id outcome]; try discriminate; unfold step, accept.
    + unfold app_get_send_message.
      destruct (_ || _); [exact Hsat|]. destruct (negb _); [exact Hsat|].
      apply queue_add_saturates. exact Hsat.
    + unfold app_get_send_message_media.
      destruct (_ || _); [exact Hsat|]. destruct (negb _); [exact Hsat|].
      apply queue_add_saturates. exact Hsat.
    + unfold fetch_settled.
      destruct (lookup_running id st) as [[t [| |]]|] eqn:Look; try exact Hsat.
      apply lookup_running_in in Look.
      destruct (tjob t) as [p m|p m u]; [eapply settle_saturates; eassumption|].
      destruct outcome as [e|resp]; [eapply settle_saturates; eassumption|].
      destruct (client_sendMessage _ _ st) as [s|] eqn:E;
        [|eapply settle_saturates; eassumption].
      eapply suspend_saturates; eassumption.
    + unfold send_settled.
      destruct (lookup_running id st) as [[t [|next|]]|] eqn:Look; try exact Hsat;
        apply lookup_running_in in Look.
      * destruct outcome as [e|]; [eapply settle_saturates; eassumption|].
        destruct next as [media|]; [|eapply settle_saturates; eassumption].
        destruct (client_sendMessage _ _ st) as [s|] eqn:E;
          [|eapply settle_saturates; eassumption].
        eapply suspend_saturates; eassumption.
      * destruct outcome; eapply settle_saturates; eassumption.
Qed.

(** X14.  In every reachable state a job is pending only while three
    jobs are in flight: whenever a slot is free the pending sequence is
    empty, so an accepted job never waits behind a free slot. *)
Theorem pending_only_when_saturated (world : env) (st : state) :
  reachable world st ->
  (waiting (queue st) <> [] -> length (running (queue st)) = 3) /\
  (length (running (queue st)) < 3 -> waiting (queue st) = []).
Proof.
  intros Hreach.
  assert (Hinv : Permutation (accounted st) (seq 0 (requests st)) /\ saturated st).
  { induction Hreach as [|i st Hreach (P & S)].
    - split; [reflexivity | left; reflexivity].
    - split; [apply step_accounted; exact P | apply step_saturated; assumption]. }
  destruct Hinv as (_ & Hsat).
  destruct (reachable_invariant world st Hreach) as (C & B & _).
  unfold bounded in B. rewrite C in B. unfold saturated in Hsat. rewrite C in Hsat.
  split.
  - intros Hne. destruct Hsat as [Hw|Hfull]; [contradiction | lia].
  - intros Hlt. destruct Hsat as [Hw|Hfull]; [exact Hw | lia].
Qed.

Lemma pending_only_when_saturated_witness :
  let st := run logged_in
              [GET_initialize;
               GET_send_message (mkQuery (Some "5550001") (Some "one") None);
               GET_send_message (mkQuery (Some "5550002") (Some "two") None);
               GET_send_message (mkQuery (Some "5550003") (Some "three") None);
               GET_send_message (mkQuery (Some "5550004") (Some "four") None)]
              initial_state in
  waiting (queue st) = [mkTask 4 (TextJob "5550004" "four")] /\
  (waiting (queue st) <> [] -> length (running (queue st)) = 3) /\
  (length (running (queue st)) < 3 -> waiting (queue st) = []).
Proof.
  split; [reflexivity|].
  apply (pending_only_when_saturated logged_in).
  apply reachable_run. apply reachable_initial.
Defined.

(** ** Further properties of the file name *)

Lemma split_no_slash s : no_slash s -> Js.split "/" s = [s].
Proof.
  induction s as [|a s IH]; simpl; [reflexivity|].
  intros [Ha Hs]. destruct (Ascii.eqb_spec a "/"); [contradiction|].
  rewrite (IH Hs). reflexivity.
Qed.

Lemma split_two_segments pre s :
  exists x y segs, Js.split "/" (String.append pre (String "/" s)) = x :: y :: segs.
Proof.
  induction pre as [|c pre (x & y & segs & IH)]; simpl.
  - pose proof (split_nonempty "/" s) as Hne.
    destruct (Js.split "/" s) as [|y segs]; [congruence|]. eauto.
  - rewrite IH. destruct (Ascii.eqb c "/"); eauto.
Qed.

(** The popped segment only depends on what follows the last separator. *)
Lemma pop_split_app pre s :
  Js.pop (Js.split "/" (String.append pre (String "/" s))) = Js.pop (Js.split "/" s).
Proof.
  induction pre as [|c pre IH]; simpl.
  - pose proof (split_nonempty "/" s) as Hne.
    destruct (Js.split "/" s) as [|y segs]; [congruence | reflexivity].
  - destruct (split_two_segments pre s) as (x & y & segs & E).
    rewrite E in *. destruct (Ascii.eqb c "/"); exact IH.
Qed.

(** X15.  The file name of a media payload is what follows the last "/"
    of the URL, query string included: for a URL [pre/seg] with no "/" in
    [seg] it is [seg], for a URL without "/" it is the whole URL, and for a
    URL that ends in "/" it is the empty string.  It is never undefined. *)
Theorem file_name_is_last_segment (pre seg : string) (resp : axios_response) :
  no_slash seg ->
  filename (media_of (String.append pre (String "/" seg)) resp) = Some seg /\
  filename (media_of seg resp) = Some seg /\
  filename (media_of (String.append pre "/") resp) = Some "".
Proof.
  intros Hseg. unfold media_of. simpl.
  rewrite !pop_split_app, (split_no_slash seg Hseg). auto.
Qed.

Lemma file_name_is_last_segment_witness :
  filename (media_of "https://cdn.example/a/pic.png?v=2" png_response) = Some "pic.png?v=2" /\
  filename (media_of "pic.png?v=2" png_response) = Some "pic.png?v=2" /\
  filename (media_of "https://cdn.example/a/" png_response) = Some "".
Proof.
  assert (Hseg : no_slash "pic.png?v=2") by (simpl; repeat split; discriminate).
  exact (file_name_is_last_segment "https://cdn.example/a" "pic.png?v=2" png_response Hseg).
Defined.

